(** * kytos-utils: the command-line API of the NApps package manager

    A shallow embedding of [kytos/cli/commands/napps/api.py] (class
    [NAppsAPI]) and the properties of its verbs: enable, disable, install,
    uninstall, search and list.

    The verbs drive a [NAppsManager] object and write to a logger.  A verb
    is embedded as a computation over the manager's state that returns
    normally or raises a Python exception, and that records, in order, the
    log records it emits and the manager methods it calls. *)

From Stdlib Require Import ZArith Ascii.
From Stdlib Require String.
From stdpp Require Import base decidable option list strings gmap sorting pretty.

Local Open Scope Z_scope.

(** ** Python values used by the module *)

(** A NApp identity: the pair [(author, name)] the parser hands over in
    [args['<napp>']]. *)
Definition napp : Type := string * string.

(** The identity as printed: ['{}/{}'.format] applied to the pair. *)
Definition napp_name (n : napp) : string := n.1 +:+ "/" +:+ n.2.

(** The exception classes the module names, and one constructor for every
    other class.  [HTTPError] carries [code] and [msg]. *)
Inductive exn : Type :=
  | FileNotFoundError (msg : string)
  | PermissionError (msg : string)
  | HTTPError (code : Z) (msg : string)
  | OtherError (cls msg : string).

(** [str(e)], what ['%s'] formats.  [HTTPError.__str__] is
    ['HTTP Error %s: %s' % (self.code, self.msg)]. *)
Definition exn_str (e : exn) : string :=
  match e with
  | FileNotFoundError m | PermissionError m | OtherError _ m => m
  | HTTPError c m => "HTTP Error " +:+ pretty c +:+ ": " +:+ m
  end.

Definition is_FileNotFoundError (e : exn) : bool :=
  match e with FileNotFoundError _ => true | _ => false end.
Definition is_PermissionError (e : exn) : bool :=
  match e with PermissionError _ => true | _ => false end.
Definition is_HTTPError (e : exn) : bool :=
  match e with HTTPError _ _ => true | _ => false end.

(** One entry of the registry's JSON answer: [n['author']], [n['name']],
    [n['description']]. *)
Record listing : Type := Listing {
  author : string;
  name : string;
  description : string
}.

(** A row handed to [print_napps]: [(status, name, desc)]. *)
Definition row : Type := string * string * string.

(** ** Strings and regular expressions

    [search] builds a regular expression with [re.escape], [str.replace]
    and [str.format], and compiles it with [re.IGNORECASE].  The functions
    of Python's [str] and [re] that it uses are modelled here on ASCII
    text: characters are the 8-bit characters of [string], and the letters
    that [re.IGNORECASE] folds are the ASCII letters. *)

Local Open Scope char_scope.

(** [str.replace(old, new)] for a non-empty [old]: the occurrences of
    [old] are replaced from left to right, without overlap.  [skip] counts
    the characters of an occurrence that remain to be dropped. *)
Fixpoint replace_go (old new : string) (skip : nat) (s : string) : string :=
  match s with
  | EmptyString => EmptyString
  | String c s' =>
      match skip with
      | S k => replace_go old new k s'
      | O =>
          if String.prefix old s
          then new +:+ replace_go old new (String.length old - 1) s'
          else String c (replace_go old new O s')
      end
  end.

Definition replace (old new s : string) : string := replace_go old new 0 s.

Module re.

(** The characters [re.escape] puts a backslash before: the keys of
    [_special_chars_map] (Python 3.7 and later; earlier versions escape
    every character that is not a letter, a digit or an underscore, which
    gives a pattern with the same meaning). *)
Definition special (c : ascii) : bool :=
  match c with
  | "(" | ")" | "[" | "]" | "{" | "}" | "?" | "*" | "+" | "-" | "|"
  | "^" | "$" | "\" | "." | "&" | "~" | "#" | " "
  | "009" | "010" | "013" | "011" | "012" => true
  | _ => false
  end.

Fixpoint escape (s : string) : string :=
  match s with
  | EmptyString => EmptyString
  | String c s' =>
      if special c then String "\" (String c (escape s'))
      else String c (escape s')
  end.

(** The part of the regular-expression syntax that [search] uses: a
    sequence of literal characters and of [.*]. *)
Inductive item : Type :=
  | Lit (c : ascii)
  | AnyStar.

Record pattern : Type := Pattern {
  items : list item;
  ignorecase : bool
}.

Definition is_alnum (c : ascii) : bool :=
  let n := N_of_ascii c in
  ((48 <=? n) && (n <=? 57) || (65 <=? n) && (n <=? 90)
   || (97 <=? n) && (n <=? 122))%N.

(** Characters with a meaning of their own in a pattern. *)
Definition meta (c : ascii) : bool :=
  match c with
  | "." | "^" | "$" | "*" | "+" | "?" | "{" | "}" | "[" | "]" | "\"
  | "|" | "(" | ")" => true
  | _ => false
  end.

(** What may follow [.*] without changing its meaning: not a second
    quantifier. *)
Definition after_star_ok (s : string) : bool :=
  match s with
  | String c _ =>
      match c with "*" | "+" | "?" | "{" => false | _ => true end
  | EmptyString => true
  end.

(** The parser of the fragment.  A backslash before a character that is
    not a letter or a digit stands for that character; [.*] is any run
    of characters; a character that is not [meta] stands for itself.
    [None] is a pattern outside the fragment.  [dot] tells that the
    character before was a [.], which must be followed by [*]. *)
Fixpoint parse_go (esc dot : bool) (s : string) : option (list item) :=
  match s with
  | EmptyString => if esc || dot then None else Some []
  | String c s' =>
      if esc then
        if is_alnum c then None else cons (Lit c) <$> parse_go false false s'
      else if dot then
        if Ascii.eqb c "*" && after_star_ok s'
        then cons AnyStar <$> parse_go false false s'
        else None
      else if Ascii.eqb c "\" then parse_go true false s'
      else if Ascii.eqb c "." then parse_go false true s'
      else if meta c then None
      else cons (Lit c) <$> parse_go false false s'
  end.

Definition parse (s : string) : option (list item) := parse_go false false s.

(** [re.compile(s, re.IGNORECASE)] *)
Definition compile_ignorecase (s : string) : option pattern :=
  (λ its, Pattern its true) <$> parse s.

Definition lower (c : ascii) : ascii :=
  let n := N_of_ascii c in
  if ((65 <=? n) && (n <=? 90))%N then ascii_of_N (n + 32) else c.

(** Whether a literal of the pattern accepts a character of the text. *)
Definition char_eq (ic : bool) (c d : ascii) : bool :=
  if ic then Ascii.eqb (lower c) (lower d) else Ascii.eqb c d.

Definition newline : ascii := "010".

(** [Pattern.match]: the pattern matches a prefix of the text.  [.]
    accepts every character except the newline ([re.DOTALL] is not
    set). *)
Fixpoint match_items (ic : bool) (its : list item) : string → bool :=
  match its with
  | [] => λ _, true
  | Lit c :: its' => λ s,
      match s with
      | String d s' => char_eq ic c d && match_items ic its' s'
      | EmptyString => false
      end
  | AnyStar :: its' =>
      fix star (s : string) : bool :=
        match_items ic its' s
        || match s with
           | String d s' => negb (Ascii.eqb d newline) && star s'
           | EmptyString => false
           end
  end.

Definition match_ (p : pattern) (s : string) : bool :=
  match_items (ignorecase p) (items p) s.

End re.

Local Close Scope char_scope.

(** ** The manager interface

    [NAppsManager] lives in [kytos.utils.napps]; the API module only calls
    it, so the verbs take the manager as a parameter.  The interface lists
    the methods the API calls.  A method that changes the manager returns
    the new manager, or the exception it raises; [set_napp] and the
    queries are taken not to raise. *)
Module NAppsManager.

Class t (M : Type) : Type := {
  search : re.pattern → M → exn + list listing;
  set_napp : string → string → M → M;
  napp_id : M → string;
  is_enabled : M → bool;
  is_installed : M → bool;
  enable : M → exn + M;
  disable : M → exn + M;
  uninstall : M → exn + M;
  install_local : M → exn + M;
  install_remote : M → exn + M;
  get_enabled : M → list napp;
  get_installed : M → list napp;
  get_disabled : M → list napp;
  get_description : string → string → M → exn + string;
}.

End NAppsManager.

(** ** Computations of the API *)

Inductive level : Type := INFO | ERROR.

(** The manager methods a verb can call. *)
Inductive call : Type :=
  | CallSetNapp (user nm : string)
  | CallIsEnabled
  | CallIsInstalled
  | CallEnable
  | CallDisable
  | CallUninstall
  | CallInstallLocal
  | CallInstallRemote
  | CallSearch
  | CallGetEnabled
  | CallGetInstalled
  | CallGetDisabled
  | CallGetDescription (user nm : string).

Inductive event : Type :=
  | Log (l : level) (msg : string)
  | Call (c : call)
  | PrintNApps (rows : list row).

Inductive result (A : Type) : Type :=
  | Returned (a : A)
  | Raised (e : exn).
Arguments Returned {A} a.
Arguments Raised {A} e.

Global Instance level_eq_dec : EqDecision level.
Proof. solve_decision. Defined.
Global Instance exn_eq_dec : EqDecision exn.
Proof. solve_decision. Defined.
Global Instance call_eq_dec : EqDecision call.
Proof. solve_decision. Defined.
Global Instance event_eq_dec : EqDecision event.
Proof. solve_decision. Defined.

(** A computation runs on a manager and gives its result, the manager
    afterwards and the events it produced, oldest first. *)
Definition api (M A : Type) : Type := M → result A * M * list event.

Definition outcome {M A} (r : result A * M * list event) : result A := r.1.1.
Definition final {M A} (r : result A * M * list event) : M := r.1.2.
Definition trace {M A} (r : result A * M * list event) : list event := r.2.

Section Monad.
Context {M : Type}.

Definition ret {A} (a : A) : api M A := λ m, (Returned a, m, []).

Definition bind {A B} (c : api M A) (k : A → api M B) : api M B := λ m,
  match c m with
  | (Returned a, m1, t1) =>
      match k a m1 with (r, m2, t2) => (r, m2, t1 ++ t2) end
  | (Raised e, m1, t1) => (Raised e, m1, t1)
  end.

Definition raise {A} (e : exn) : api M A := λ m, (Raised e, m, []).

(** Reading an attribute of the manager. *)
Definition attr {A} (f : M → A) : api M A := λ m, (Returned (f m), m, []).

Definition log (l : level) (msg : string) : api M unit :=
  λ m, (Returned tt, m, [Log l msg]).

(** [try: body except ...: handler].  [handler e] is [None] when no
    [except] clause matches [e], and the exception goes on. *)
Definition try_except {A} (body : api M A)
    (handler : exn → option (api M A)) : api M A := λ m,
  match body m with
  | (Returned a, m1, t1) => (Returned a, m1, t1)
  | (Raised e, m1, t1) =>
      match handler e with
      | Some h => match h m1 with (r, m2, t2) => (r, m2, t1 ++ t2) end
      | None => (Raised e, m1, t1)
      end
  end.

(** A method that only reads the manager. *)
Definition query {A} (c : call) (f : M → A) : api M A :=
  λ m, (Returned (f m), m, [Call c]).

(** A method that changes the manager and cannot raise. *)
Definition update (c : call) (f : M → M) : api M unit :=
  λ m, (Returned tt, f m, [Call c]).

(** A method that changes the manager or raises. *)
Definition invoke (c : call) (f : M → exn + M) : api M unit := λ m,
  match f m with
  | inl e => (Raised e, m, [Call c])
  | inr m1 => (Returned tt, m1, [Call c])
  end.

(** A method that reads the manager or raises. *)
Definition fetch {A} (c : call) (f : M → exn + A) : api M A := λ m,
  match f m with
  | inl e => (Raised e, m, [Call c])
  | inr a => (Returned a, m, [Call c])
  end.
End Monad.

Notation "x <- c ;; k" := (bind c (λ x, k))
  (at level 100, c at next level, right associativity).
Notation "c ;;; k" := (bind c (λ _, k))
  (at level 100, right associativity).

(** [for x in xs: body] *)
Fixpoint for_each {M A} (xs : list A) (body : A → api M unit) : api M unit :=
  match xs with
  | [] => ret tt
  | x :: xs' => body x ;;; for_each xs' body
  end.

(** [[f(x) for x in xs]] where [f] may raise. *)
Fixpoint map_m {M A B} (f : A → api M B) (xs : list A) : api M (list B) :=
  match xs with
  | [] => ret []
  | x :: xs' => y <- f x ;; ys <- map_m f xs' ;; ret (y :: ys)
  end.

(** ** Ordering of tuples of strings

    [sorted] and [list.sort] compare tuples of strings: the first
    components that differ decide, and strings compare by code point.
    A pair of an identity and a description, [((author, name), desc)], and
    a triple [(user, napp, status)] have the same shape here. *)
Definition tuple3_le (x y : string * string * string) : Prop :=
  let '(a1, b1, c1) := x in
  let '(a2, b2, c2) := y in
  if decide (a1 = a2)
  then if decide (b1 = b2) then String.le c1 c2 else String.le b1 b2
  else String.le a1 a2.

Global Instance tuple3_le_dec : RelDecision tuple3_le.
Proof.
  intros [[a1 b1] c1] [[a2 b2] c2]. unfold tuple3_le.
  repeat case_decide; apply _.
Defined.

(** The order on identities, [(author, name)]. *)
Definition napp_le (x y : napp) : Prop :=
  if decide (x.1 = y.1) then String.le x.2 y.2 else String.le x.1 y.1.

(** [sorted(xs)] and [xs.sort()].  The order is total and antisymmetric,
    so [xs] has one arrangement in non-decreasing order, whatever the
    sorting algorithm. *)
Definition sorted (xs : list (string * string * string))
  : list (string * string * string) := merge_sort tuple3_le xs.

(** ** The API: class [NAppsAPI] *)

(** The parsed command line, [args]: [args['<napp>']] and
    [args['<pattern>']]. *)
Record args : Type := Args {
  arg_napp : list napp;
  arg_pattern : string
}.

Module NAppsAPI.
Section API.
Context {M : Type} {mgr : NAppsManager.t M}.

(** [mgr.set_napp( *napp); log.info('NApp %s:', mgr.napp_id)], the head
    of every loop body. *)
Definition select (n : napp) : api M unit :=
  update (CallSetNapp n.1 n.2) (NAppsManager.set_napp n.1 n.2) ;;;
  id <- attr NAppsManager.napp_id ;;
  log INFO ("NApp " +:+ id +:+ ":").

Definition disable_napp : api M unit :=
  en <- query CallIsEnabled NAppsManager.is_enabled ;;
  (if en
   then log INFO "  Disabling..." ;;;
        invoke CallDisable NAppsManager.disable
   else ret tt) ;;;
  log INFO "  Disabled.".

Definition disable (a : args) : api M unit :=
  for_each (arg_napp a) (λ n, select n ;;; disable_napp).

Definition enable_napp : api M unit :=
  try_except
    (en <- query CallIsEnabled NAppsManager.is_enabled ;;
     (if negb en
      then log INFO "  Enabling..." ;;;
           invoke CallEnable NAppsManager.enable
      else ret tt) ;;;
     log INFO "  Enabled.")
    (λ e,
      if is_FileNotFoundError e || is_PermissionError e
      then Some (log ERROR ("  " +:+ exn_str e))
      else None).

Definition enable (a : args) : api M unit :=
  for_each (arg_napp a) (λ n, select n ;;; enable_napp).

Definition uninstall (a : args) : api M unit :=
  for_each (arg_napp a) (λ n,
    select n ;;;
    inst <- query CallIsInstalled NAppsManager.is_installed ;;
    (if inst
     then log INFO "  Uninstalling..." ;;;
          invoke CallUninstall NAppsManager.uninstall ;;;
          disable_napp
     else ret tt) ;;;
    log INFO "  Uninstalled.").

Definition install_napp : api M unit :=
  try_except
    (log INFO "  Searching local NApp..." ;;;
     invoke CallInstallLocal NAppsManager.install_local ;;;
     log INFO "  Installed." ;;;
     enable_napp)
    (λ e,
      if is_FileNotFoundError e
      then Some
        (log INFO "  Downloading from NApps Server..." ;;;
         try_except
           (invoke CallInstallRemote NAppsManager.install_remote ;;;
            log INFO "  Installed." ;;;
            enable_napp)
           (λ e,
             match e with
             | HTTPError code _ =>
                 Some (if decide (code = 404)
                       then log ERROR "  NApp not found."
                       else log ERROR ("  NApps Server error: " +:+ exn_str e))
             | _ => None
             end))
      else None).

Definition install (a : args) : api M unit :=
  for_each (arg_napp a) (λ n,
    select n ;;;
    inst <- query CallIsInstalled NAppsManager.is_installed ;;
    if negb inst then install_napp else log INFO "  Installed.").

(** [print_napps(napps)]: the rows it is given are recorded; the layout
    of the table on the terminal is not modelled. *)
Definition print_napps (napps : list row) : api M unit :=
  λ m, (Returned tt, m, [PrintNApps napps]).

(** The regular expression [search] compiles:
    ['.*{}.*'.format(re.escape(pat).replace(r'\*', '.*'))]. *)
Definition pat_str (pat : string) : string :=
  ".*" +:+ replace "\*" ".*" (re.escape pat) +:+ ".*".

(** The status of a remote NApp, ['[{}]'.format(status)]. *)
Definition status (installed enabled : list napp) (n : napp) : string :=
  "[" +:+ ((if bool_decide (n ∈ installed) then "i" else "-")
           +:+ (if bool_decide (n ∈ enabled) then "e" else "-")) +:+ "]".

(** The body of the loop over [sorted(remote)]. *)
Definition search_row (installed enabled : list napp)
    (x : string * string * string) : row :=
  let '(n, desc) := x in (status installed enabled n, napp_name n, desc).

(** The rows [search] builds from the registry's answer and the local
    sets. *)
Definition search_rows (remote_json : list listing)
    (installed enabled : list napp) : list row :=
  let remote := (λ n, ((author n, name n), description n)) <$> remote_json in
  search_row installed enabled <$> sorted remote.

Definition search (a : args) : api M unit :=
  match re.compile_ignorecase (pat_str (arg_pattern a)) with
  | None => raise (OtherError "re.error" "")
  | Some pattern =>
      remote_json <- fetch CallSearch (NAppsManager.search pattern) ;;
      enabled <- query CallGetEnabled NAppsManager.get_enabled ;;
      installed <- query CallGetInstalled NAppsManager.get_installed ;;
      let napps := search_rows remote_json installed enabled in
      print_napps napps
  end.

(** [napp + ('[ie]',)] *)
Definition with_status (s : string) (n : napp) : string * string * string :=
  (n.1, n.2, s).

Definition list_ (a : args) : api M unit :=
  enabled <- query CallGetEnabled NAppsManager.get_enabled ;;
  disabled <- query CallGetDisabled NAppsManager.get_disabled ;;
  let napps := (with_status "[ie]" <$> enabled)
               ++ (with_status "[i-]" <$> disabled) in
  let napps := sorted napps in
  napps <- map_m (λ '(u, n, s),
             d <- fetch (CallGetDescription u n)
                        (NAppsManager.get_description u n) ;;
             ret (s, napp_name (u, n), d)) napps ;;
  print_napps napps.

End API.
End NAppsAPI.

(** ** A model of the manager

    [kytos.utils.napps.NAppsManager] is not part of the API module.  The
    model below follows the specification of the local state store, the
    registry client and the lifecycle table. *)

(** Modelled from the spec: the state [NAppsManager] works on ("Local
    state store", "Remote registry client", "Local filesystem layout").
    [installed] is the installed root, with the description each installed
    NApp carries in its metadata; [enabled] is the enabled root;
    [local_src] holds the identities that have a local source on disk, with
    their descriptions; [served] is what the registry lists and
    [server_error], when set, the status and reason the registry answers
    with; [ro_installed] and [ro_enabled] tell that access to a root is
    denied.  [current] is the identity chosen by [set_napp]. *)
Record store : Type := Store {
  current : napp;
  installed : gmap napp string;
  enabled : gset napp;
  local_src : gmap napp string;
  served : list listing;
  server_error : option (Z * string);
  ro_installed : bool;
  ro_enabled : bool
}.

(** Modelled from the spec: the lifecycle states of an identity, "ABSENT,
    INSTALLED, ENABLED".  The two roots are independent, so a fourth
    combination exists on disk: the enabled marker without installed code,
    [DANGLING], which the invariant "enabled implies installed" excludes. *)
Inductive lifecycle : Type := ABSENT | INSTALLED | ENABLED | DANGLING.

Definition state_of (s : store) (n : napp) : lifecycle :=
  match bool_decide (n ∈ dom (installed s)), bool_decide (n ∈ enabled s) with
  | false, false => ABSENT
  | true, false => INSTALLED
  | true, true => ENABLED
  | false, true => DANGLING
  end.

Definition served_description (s : store) (n : napp) : option string :=
  description <$> head (filter (λ l, (author l, name l) = n) (served s)).

Module StoreManager.

Definition set_napp (u n : string) (s : store) : store :=
  Store (u, n) (installed s) (enabled s) (local_src s) (served s)
        (server_error s) (ro_installed s) (ro_enabled s).

Definition with_installed (i : gmap napp string) (s : store) : store :=
  Store (current s) i (enabled s) (local_src s) (served s)
        (server_error s) (ro_installed s) (ro_enabled s).

Definition with_enabled (e : gset napp) (s : store) : store :=
  Store (current s) (installed s) e (local_src s) (served s)
        (server_error s) (ro_installed s) (ro_enabled s).

(** Modelled from the spec: "isInstalled(id), isEnabled(id): query
    filesystem state; never throw". *)
Definition is_installed (s : store) : bool :=
  bool_decide (current s ∈ dom (installed s)).
Definition is_enabled (s : store) : bool :=
  bool_decide (current s ∈ enabled s).

(** Modelled from the spec: "INSTALLED, enable, ENABLED; precondition:
    install path exists; failure: PermissionDenied / NotFound". *)
Definition enable (s : store) : exn + store :=
  if negb (is_installed s) then inl (FileNotFoundError "NApp not installed")
  else if ro_enabled s then inl (PermissionError "Permission denied")
  else inr (with_enabled ({[current s]} ∪ enabled s) s).

(** Modelled from the spec: "ENABLED, disable, INSTALLED; always
    succeeds"; "markDisabled [is] idempotent". *)
Definition disable (s : store) : exn + store :=
  inr (with_enabled (enabled s ∖ {[current s]}) s).

(** Modelled from the spec: "removes installed code"; the lifecycle table
    lists no failure. *)
Definition uninstall (s : store) : exn + store :=
  inr (with_installed (delete (current s) (installed s)) s).

(** Modelled from the spec: "ABSENT, install (local), INSTALLED;
    precondition: a local source matching id exists on disk; failure:
    NotFound (no local source)", and "PermissionDenied (filesystem access
    denied)" for the write into the installed root. *)
Definition install_local (s : store) : exn + store :=
  match local_src s !! current s with
  | None => inl (FileNotFoundError "NApp not found")
  | Some d =>
      if ro_installed s then inl (PermissionError "Permission denied")
      else inr (with_installed (<[current s := d]> (installed s)) s)
  end.

(** Modelled from the spec: "ABSENT, install (remote), INSTALLED;
    precondition: registry has the identity; failure: NotFound (404) /
    RegistryError (other)", the failures being HTTP errors. *)
Definition install_remote (s : store) : exn + store :=
  match server_error s with
  | Some (code, msg) => inl (HTTPError code msg)
  | None =>
      match served_description s (current s) with
      | None => inl (HTTPError 404 "Not Found")
      | Some d =>
          if ro_installed s then inl (PermissionError "Permission denied")
          else inr (with_installed (<[current s := d]> (installed s)) s)
      end
  end.

(** Modelled from the spec: "listEnabled(), listInstalled(): enumerate
    current local state"; the disabled NApps are the "locally
    disabled-but-installed plugins". *)
Definition get_enabled (s : store) : list napp := elements (enabled s).
Definition get_installed (s : store) : list napp :=
  elements (dom (installed s)).
Definition get_disabled (s : store) : list napp :=
  elements (dom (installed s) ∖ enabled s).

(** Modelled from the spec: "getDescription(id): reads plugin metadata
    from its installed location; fails with NotInstalled if absent". *)
Definition get_description (u n : string) (s : store) : exn + string :=
  match installed s !! (u, n) with
  | Some d => inr d
  | None => inl (OtherError "NotInstalled" (napp_name (u, n)))
  end.

(** Modelled from the spec: "search(pattern): queries the registry ...
    against remote listings, author+name pairs only (not description)";
    a failing registry answers with its error. *)
Definition search (p : re.pattern) (s : store) : exn + list listing :=
  match server_error s with
  | Some (code, msg) => inl (HTTPError code msg)
  | None =>
      inr (filter (λ l, re.match_ p (napp_name (author l, name l)) = true)
                  (served s))
  end.

Global Instance manager : NAppsManager.t store := {|
  NAppsManager.search := search;
  NAppsManager.set_napp := set_napp;
  NAppsManager.napp_id := λ s, napp_name (current s);
  NAppsManager.is_enabled := is_enabled;
  NAppsManager.is_installed := is_installed;
  NAppsManager.enable := enable;
  NAppsManager.disable := disable;
  NAppsManager.uninstall := uninstall;
  NAppsManager.install_local := install_local;
  NAppsManager.install_remote := install_remote;
  NAppsManager.get_enabled := get_enabled;
  NAppsManager.get_installed := get_installed;
  NAppsManager.get_disabled := get_disabled;
  NAppsManager.get_description := get_description
|}.

End StoreManager.

(** ** Search patterns *)

Fixpoint all_chars (f : ascii → bool) (s : string) : bool :=
  match s with
  | EmptyString => true
  | String c s' => f c && all_chars f s'
  end.

Definition not_newline (c : ascii) : bool := negb (Ascii.eqb c re.newline).

(** The text has no newline character. *)
Definition single_line (s : string) : bool := all_chars not_newline s.

(** What [search] does with each character of the user's pattern. *)
Fixpoint glob_items (pat : string) : list re.item :=
  match pat with
  | EmptyString => []
  | String c pat' =>
      (if Ascii.eqb c "*" then re.AnyStar else re.Lit c) :: glob_items pat'
  end.

(** The text [search] passes to [re.compile], one pattern character after
    the other, between the two [.*]. *)
Fixpoint translate (pat : string) : string :=
  match pat with
  | EmptyString => EmptyString
  | String c pat' =>
      if Ascii.eqb c "*" then String "." (String "*" (translate pat'))
      else if re.special c then String "\" (String c (translate pat'))
      else String c (translate pat')
  end.

(** Whether the pattern that [search] compiles for [pat] matches [text]
    ([Pattern.match]). *)
Definition search_matches (pat text : string) : bool :=
  match re.compile_ignorecase (NAppsAPI.pat_str pat) with
  | Some p => re.match_ p text
  | None => false
  end.

(** The words of the specification: a shell-style pattern matches a text
    when each [*] stands for a run of characters and every other character
    of the pattern stands for itself, letter case apart.  [ok] tells which
    characters a [*] may stand for. *)
Inductive glob (ok : ascii → bool) : string → string → Prop :=
  | glob_nil : glob ok "" ""
  | glob_star (p w t : string) :
      all_chars ok w = true → glob ok p t →
      glob ok (String "*" p) (w +:+ t)
  | glob_char (c d : ascii) (p t : string) :
      c ≠ "*"%char → re.lower c = re.lower d → glob ok p t →
      glob ok (String c p) (String d t).

(** "A case-insensitive substring match in which [*] matches any sequence
    of characters": some substring of the text matches the pattern. *)
Definition glob_substring (pat text : string) : Prop :=
  ∃ pre mid post, text = pre +:+ mid +:+ post ∧ glob (λ _, true) pat mid.

(** ** Reading a row *)

(** The two flags of a status ['[ie]']: the characters at positions 1
    and 2. *)
Definition installed_flag (r : row) : bool :=
  bool_decide (String.get 1 r.1.1 = Some "i"%char).
Definition enabled_flag (r : row) : bool :=
  bool_decide (String.get 2 r.1.1 = Some "e"%char).

(** The triple [sorted] compares for a listing, and back. *)
Definition listing_key (l : listing) : string * string * string :=
  ((author l, name l), description l).
Definition key_listing (x : string * string * string) : listing :=
  Listing x.1.1 x.1.2 x.2.

(** ** Reading a trace *)

(** The manager methods called in a run, in order. *)
Definition calls (t : list event) : list call :=
  omap (λ ev, match ev with Call c => Some c | _ => None end) t.

(** The identities a verb has taken up, in order: the arguments of its
    calls of [set_napp]. *)
Definition selected (t : list event) : list napp :=
  omap (λ ev, match ev with
              | Call (CallSetNapp u n) => Some (u, n)
              | _ => None
              end) t.


(** ** The batch verbs *)

Inductive verb : Type := Enable | Disable | Install | Uninstall.

Definition run_verb {M : Type} {mgr : NAppsManager.t M} (v : verb)
    : args → api M unit :=
  match v with
  | Enable => NAppsAPI.enable
  | Disable => NAppsAPI.disable
  | Install => NAppsAPI.install
  | Uninstall => NAppsAPI.uninstall
  end.

(** The failures of the manager that the verbs handle, on the managers
    that satisfy [P]: [P] is kept by every method, [enable] raises only
    [FileNotFoundError] or [PermissionError], [install_local] only
    [FileNotFoundError], [install_remote] only [HTTPError], and [disable]
    and [uninstall] do not raise. *)
Record handled_failures {M : Type} {mgr : NAppsManager.t M}
    (P : M → Prop) : Prop := {
  keeps_set_napp : ∀ u n m, P m → P (NAppsManager.set_napp u n m);
  keeps_enable : ∀ m m1, P m → NAppsManager.enable m = inr m1 → P m1;
  keeps_disable : ∀ m m1, P m → NAppsManager.disable m = inr m1 → P m1;
  keeps_uninstall : ∀ m m1, P m → NAppsManager.uninstall m = inr m1 → P m1;
  keeps_install_local :
    ∀ m m1, P m → NAppsManager.install_local m = inr m1 → P m1;
  keeps_install_remote :
    ∀ m m1, P m → NAppsManager.install_remote m = inr m1 → P m1;
  enable_raises : ∀ m e, P m → NAppsManager.enable m = inl e →
    is_FileNotFoundError e || is_PermissionError e = true;
  disable_raises : ∀ m e, P m → NAppsManager.disable m = inl e → False;
  uninstall_raises : ∀ m e, P m → NAppsManager.uninstall m = inl e → False;
  install_local_raises : ∀ m e, P m → NAppsManager.install_local m = inl e →
    is_FileNotFoundError e = true;
  install_remote_raises : ∀ m e, P m → NAppsManager.install_remote m = inl e →
    is_HTTPError e = true
}.

(** ** Sample stores *)

Definition demo_store : store := {|
  current := ("", "");
  installed := {[ ("kytos", "of_core") := "OpenFlow core";
                  ("kytos", "of_lldp") := "Link discovery" ]};
  enabled := {[ ("kytos", "of_core") ]};
  local_src := {[ ("dev", "topology") := "Topology (local source)" ]};
  served := [ Listing "kytos" "of_stats" "Statistics";
              Listing "kytos" "of_core" "OpenFlow core" ];
  server_error := None;
  ro_installed := false;
  ro_enabled := false
|}.

(** The registry answers every request with status 500. *)
Definition failing_registry_store : store := {|
  current := current demo_store;
  installed := installed demo_store;
  enabled := enabled demo_store;
  local_src := local_src demo_store;
  served := served demo_store;
  server_error := Some (500, "Internal Server Error");
  ro_installed := false;
  ro_enabled := false
|}.

(** Access to the enabled root is denied. *)
Definition ro_enabled_store : store := {|
  current := current demo_store;
  installed := installed demo_store;
  enabled := enabled demo_store;
  local_src := local_src demo_store;
  served := served demo_store;
  server_error := None;
  ro_installed := false;
  ro_enabled := true
|}.

(** Access to the installed root is denied. *)
Definition ro_installed_store : store := {|
  current := current demo_store;
  installed := installed demo_store;
  enabled := enabled demo_store;
  local_src := local_src demo_store;
  served := served demo_store;
  server_error := None;
  ro_installed := true;
  ro_enabled := false
|}.

(** ** The table printed by [print_napps]

    [print_napps] writes to the terminal with [print].  Its body is
    embedded as a function from the rows and from [columns], the integer
    [int(term_w)] that [stty size] reports, to the lines given to [print],
    in order, and to the way the function ends.  Reading the terminal
    ([os.popen], [split], [int]) is not part of the embedding.  Text is
    ASCII, so [len] is the number of characters. *)
Module Table.

(** ['=' * w] and the padding of a field: [n] copies of a character. *)
Fixpoint repeat_char (c : ascii) (n : nat) : string :=
  match n with
  | O => EmptyString
  | S n' => String c (repeat_char c n')
  end.

(** The alignments of the format specifications: [<] and [^]. *)
Inductive align : Type := Left | Center.

(** ['{:<%d}' % w] and ['{:^%d}' % w] applied to a string with [format].
    A negative [w] prints with a minus sign, which the format
    specification of a string does not allow: [ValueError].  Otherwise the
    string is padded with spaces up to [w] characters, never cut; centring
    puts the smaller half of the padding on the left. *)
Definition format_field (al : align) (w : Z) (s : string) : exn + string :=
  if w <? 0
  then inl (OtherError "ValueError"
                       "Sign not allowed in string format specifier")
  else
    let pad := (Z.to_nat w - String.length s)%nat in
    match al with
    | Left => inr (s +:+ repeat_char " " pad)
    | Center =>
        let l := (pad / 2)%nat in
        inr (repeat_char " " l +:+ s +:+ repeat_char " " (pad - l))
    end.

(** A format string of three fields separated by [' | '], applied to three
    strings; [pre] is the text before the first field. *)
Definition format3 (pre : string) (a1 a2 a3 : align) (w1 w2 w3 : Z)
    (x y z : string) : exn + string :=
  match format_field a1 w1 x with
  | inl e => inl e
  | inr f1 =>
      match format_field a2 w2 y with
      | inl e => inl e
      | inr f2 =>
          match format_field a3 w3 z with
          | inl e => inl e
          | inr f3 => inr (pre +:+ f1 +:+ " | " +:+ f2 +:+ " | " +:+ f3)
          end
      end
  end.

(** [s[:k]]: a negative [k] counts from the end, and the bounds are
    clipped to the string. *)
Definition slice_to (k : Z) (s : string) : string :=
  let n := Z.of_nat (String.length s) in
  let stop := if k <? 0 then Z.max 0 (n + k) else Z.min k n in
  String.substring 0 (Z.to_nat stop) s.

(** [(desc[:desc_w-3] + '...') if len(desc) > desc_w else desc] *)
Definition shorten (desc_w : Z) (desc : string) : string :=
  if Z.of_nat (String.length desc) >? desc_w
  then slice_to (desc_w - 3) desc +:+ "..."
  else desc.

(** [max(len(f(n)) for n in napps)], on a list that is not empty. *)
Definition max_len (f : row → string) (napps : list row) : Z :=
  Z.of_nat (max_list ((λ n, String.length (f n)) <$> napps)).

Definition name_w (napps : list row) : Z := max_len (λ n, n.1.2) napps.

(** [desc_w] after [desc_w = min(desc_w, remaining)]. *)
Definition desc_w (columns : Z) (napps : list row) : Z :=
  let stat_w := 6 in
  let remaining := columns - stat_w - name_w napps - 6 in
  Z.min (max_len (λ n, n.2) napps) remaining.

(** ['=+='.join('=' * w for w in widths)] *)
Definition rule (w1 w2 w3 : Z) : string :=
  repeat_char "=" (Z.to_nat w1) +:+ "=+=" +:+ repeat_char "=" (Z.to_nat w2)
  +:+ "=+=" +:+ repeat_char "=" (Z.to_nat w3).

(** The loop over the rows: the lines printed, and how the loop ends. *)
Fixpoint print_rows (w1 w2 w3 : Z) (napps : list row)
    : result unit * list string :=
  match napps with
  | [] => (Returned tt, [])
  | (user, name, desc) :: rest =>
      match format3 "" Center Left Left w1 w2 w3 user name (shorten w3 desc) with
      | inl e => (Raised e, [])
      | inr line =>
          let '(r, lines) := print_rows w1 w2 w3 rest in (r, line :: lines)
      end
  end.

Definition print_napps (columns : Z) (napps : list row)
    : result unit * list string :=
  match napps with
  | [] => (Returned tt, ["No NApps found."])
  | _ :: _ =>
      let w1 := 6 in
      let w2 := name_w napps in
      let w3 := desc_w columns napps in
      match format3 (String "010" "") Center Center Center w1 w2 w3
                    "Status" "NApp ID" "Description" with
      | inl e => (Raised e, [])
      | inr header =>
          match print_rows w1 w2 w3 napps with
          | (Returned _, lines) =>
              (Returned tt,
               [header; rule w1 w2 w3] ++ lines
               ++ [String "010" "Status: (i)nstalled, (e)nabled"
                   +:+ String "010" ""])
          | (Raised e, lines) => (Raised e, [header; rule w1 w2 w3] ++ lines)
          end
      end
  end.

(** The line of a row when the widths are not negative. *)
Definition row_line (w2 w3 : Z) (r : row) : string :=
  let pad := (6 - String.length r.1.1)%nat in
  (repeat_char " " (pad / 2) +:+ r.1.1 +:+ repeat_char " " (pad - pad / 2))
  +:+ " | "
  +:+ (r.1.2 +:+ repeat_char " " (Z.to_nat w2 - String.length r.1.2))
  +:+ " | "
  +:+ (shorten w3 r.2
       +:+ repeat_char " " (Z.to_nat w3 - String.length (shorten w3 r.2))).

End Table.

(** ** A manager that raises on demand

    A manager for one NApp whose methods raise the exception they are told
    to raise: a test double, to run the verbs on the failures of every
    method. *)
Record mock : Type := Mock {
  mock_installed : bool;
  mock_enabled : bool;
  on_enable : option exn;
  on_disable : option exn;
  on_uninstall : option exn;
  on_install_local : option exn;
  on_install_remote : option exn;
  on_description : option exn
}.

Module MockManager.

Definition with_state (i e : bool) (m : mock) : mock :=
  Mock i e (on_enable m) (on_disable m) (on_uninstall m)
       (on_install_local m) (on_install_remote m) (on_description m).

Definition act (fault : option exn) (i e : bool) (m : mock) : exn + mock :=
  match fault with
  | Some x => inl x
  | None => inr (with_state i e m)
  end.

Global Instance manager : NAppsManager.t mock := {|
  NAppsManager.search := λ _ _, inr [];
  NAppsManager.set_napp := λ _ _ m, m;
  NAppsManager.napp_id := λ _, "mock/napp";
  NAppsManager.is_enabled := mock_enabled;
  NAppsManager.is_installed := mock_installed;
  NAppsManager.enable := λ m, act (on_enable m) (mock_installed m) true m;
  NAppsManager.disable := λ m, act (on_disable m) (mock_installed m) false m;
  NAppsManager.uninstall := λ m, act (on_uninstall m) false (mock_enabled m) m;
  NAppsManager.install_local :=
    λ m, act (on_install_local m) true (mock_enabled m) m;
  NAppsManager.install_remote :=
    λ m, act (on_install_remote m) true (mock_enabled m) m;
  NAppsManager.get_enabled :=
    λ m, if mock_enabled m then [("mock", "napp")] else [];
  NAppsManager.get_installed :=
    λ m, if mock_installed m then [("mock", "napp")] else [];
  NAppsManager.get_disabled :=
    λ m, if mock_installed m && negb (mock_enabled m)
         then [("mock", "napp")] else [];
  NAppsManager.get_description := λ _ _ m,
    match on_description m with
    | Some x => inl x
    | None => inr "A NApp"
    end
|}.

End MockManager.

(** ** What a verb may leave in the trace *)

(** An event that is a log record or a call of a method [ok] admits;
    printing the table is not admitted. *)
Definition event_ok (ok : call → bool) (ev : event) : bool :=
  match ev with
  | Call c => ok c
  | Log _ _ => true
  | PrintNApps _ => false
  end.

(** Code that, on every manager, leaves only such events. *)
Definition only {M A : Type} (ok : call → bool) (c : api M A) : Prop :=
  ∀ m, Forall (λ ev, event_ok ok ev = true) (trace (c m)).

(** Every method but [set_napp]. *)
Definition no_select (c : call) : bool :=
  match c with
  | CallSetNapp _ _ => false
  | _ => true
  end.

(** The manager methods that the code of a verb and of the helpers it
    calls names. *)
Definition verb_calls (v : verb) (c : call) : bool :=
  match c, v with
  | CallSetNapp _ _, _ => true
  | CallIsEnabled, _ => true
  | CallIsInstalled, (Install | Uninstall) => true
  | CallEnable, (Enable | Install) => true
  | CallDisable, (Disable | Uninstall) => true
  | CallUninstall, Uninstall => true
  | (CallInstallLocal | CallInstallRemote), Install => true
  | _, _ => false
  end.

(** The body of a verb's loop, after [select]. *)
Definition after_select {M : Type} {mgr : NAppsManager.t M} (v : verb)
    : api M unit :=
  match v with
  | Enable => NAppsAPI.enable_napp
  | Disable => NAppsAPI.disable_napp
  | Install =>
      inst <- query CallIsInstalled NAppsManager.is_installed ;;
      if negb inst then NAppsAPI.install_napp else log INFO "  Installed."
  | Uninstall =>
      inst <- query CallIsInstalled NAppsManager.is_installed ;;
      (if inst
       then log INFO "  Uninstalling..." ;;;
            invoke CallUninstall NAppsManager.uninstall ;;;
            NAppsAPI.disable_napp
       else ret tt) ;;;
      log INFO "  Uninstalled."
  end.

(** * Properties *)

(** ** Running the per-NApp helpers *)

Ltac run_api :=
  unfold NAppsAPI.install, NAppsAPI.uninstall, NAppsAPI.enable,
    NAppsAPI.disable, NAppsAPI.install_napp, NAppsAPI.enable_napp,
    NAppsAPI.disable_napp, NAppsAPI.select, for_each, try_except, bind, ret,
    log, query, update, invoke, fetch, attr, raise.

Section Helpers.
Context {M : Type} {mgr : NAppsManager.t M}.

Lemma enable_napp_already (m : M) :
  NAppsManager.is_enabled m = true →
  NAppsAPI.enable_napp m
  = (Returned tt, m, [Call CallIsEnabled; Log INFO "  Enabled."]).
Proof. intros H. run_api. by rewrite H. Qed.

Lemma enable_napp_ok (m m1 : M) :
  NAppsManager.is_enabled m = false →
  NAppsManager.enable m = inr m1 →
  NAppsAPI.enable_napp m
  = (Returned tt, m1,
     [Call CallIsEnabled; Log INFO "  Enabling..."; Call CallEnable;
      Log INFO "  Enabled."]).
Proof. intros H1 H2. run_api. rewrite H1; simpl. by rewrite H2. Qed.

Lemma enable_napp_handled (m : M) (e : exn) :
  NAppsManager.is_enabled m = false →
  NAppsManager.enable m = inl e →
  is_FileNotFoundError e || is_PermissionError e = true →
  NAppsAPI.enable_napp m
  = (Returned tt, m,
     [Call CallIsEnabled; Log INFO "  Enabling..."; Call CallEnable;
      Log ERROR ("  " +:+ exn_str e)]).
Proof.
  intros H1 H2 H3. run_api. rewrite H1; simpl. rewrite H2; simpl.
  by rewrite H3.
Qed.

Lemma enable_napp_raises (m : M) (e : exn) :
  NAppsManager.is_enabled m = false →
  NAppsManager.enable m = inl e →
  is_FileNotFoundError e || is_PermissionError e = false →
  NAppsAPI.enable_napp m
  = (Raised e, m,
     [Call CallIsEnabled; Log INFO "  Enabling..."; Call CallEnable]).
Proof.
  intros H1 H2 H3. run_api. rewrite H1; simpl. rewrite H2; simpl.
  by rewrite H3.
Qed.

Lemma disable_napp_already (m : M) :
  NAppsManager.is_enabled m = false →
  NAppsAPI.disable_napp m
  = (Returned tt, m, [Call CallIsEnabled; Log INFO "  Disabled."]).
Proof. intros H. run_api. by rewrite H. Qed.

Lemma disable_napp_ok (m m1 : M) :
  NAppsManager.is_enabled m = true →
  NAppsManager.disable m = inr m1 →
  NAppsAPI.disable_napp m
  = (Returned tt, m1,
     [Call CallIsEnabled; Log INFO "  Disabling..."; Call CallDisable;
      Log INFO "  Disabled."]).
Proof. intros H1 H2. run_api. rewrite H1; simpl. by rewrite H2. Qed.

Lemma disable_napp_raises (m : M) (e : exn) :
  NAppsManager.is_enabled m = true →
  NAppsManager.disable m = inl e →
  NAppsAPI.disable_napp m
  = (Raised e, m,
     [Call CallIsEnabled; Log INFO "  Disabling..."; Call CallDisable]).
Proof. intros H1 H2. run_api. rewrite H1; simpl. by rewrite H2. Qed.

(** Running a helper twice ends in the manager it ends in when run once,
    as soon as a successful [enable] leaves the NApp enabled and a
    successful [disable] leaves it disabled. *)
Lemma enable_napp_twice (m : M) :
  (∀ m1, NAppsManager.enable m = inr m1 → NAppsManager.is_enabled m1 = true) →
  final ((NAppsAPI.enable_napp ;;; NAppsAPI.enable_napp) m)
  = final (NAppsAPI.enable_napp m).
Proof.
  intros Hlaw. unfold bind.
  destruct (NAppsManager.is_enabled m) eqn:Hen.
  { rewrite (enable_napp_already m Hen). by rewrite (enable_napp_already m Hen). }
  destruct (NAppsManager.enable m) as [e|m1] eqn:Hcall.
  - destruct (is_FileNotFoundError e || is_PermissionError e) eqn:He.
    + rewrite (enable_napp_handled m e) by done.
      by rewrite (enable_napp_handled m e) by done.
    + by rewrite (enable_napp_raises m e) by done.
  - rewrite (enable_napp_ok m m1) by done.
    by rewrite (enable_napp_already m1) by auto.
Qed.

Lemma disable_napp_twice (m : M) :
  (∀ m1, NAppsManager.disable m = inr m1 → NAppsManager.is_enabled m1 = false) →
  final ((NAppsAPI.disable_napp ;;; NAppsAPI.disable_napp) m)
  = final (NAppsAPI.disable_napp m).
Proof.
  intros Hlaw. unfold bind.
  destruct (NAppsManager.is_enabled m) eqn:Hen.
  - destruct (NAppsManager.disable m) as [e|m1] eqn:Hcall.
    + by rewrite (disable_napp_raises m e) by done.
    + rewrite (disable_napp_ok m m1) by done.
      by rewrite (disable_napp_already m1) by auto.
  - rewrite (disable_napp_already m Hen). by rewrite (disable_napp_already m Hen).
Qed.

End Helpers.

Lemma calls_app (t1 t2 : list event) : calls (t1 ++ t2) = calls t1 ++ calls t2.
Proof. apply omap_app. Qed.

Lemma elem_of_calls (c : call) (t : list event) : c ∈ calls t ↔ Call c ∈ t.
Proof.
  unfold calls. rewrite list_elem_of_omap. split.
  - intros ([| |] & Hin & Heq); simplify_eq. done.
  - intros Hin. by exists (Call c).
Qed.

Section InstallNApp.
Context {M : Type} {mgr : NAppsManager.t M}.

(** [enable_napp] calls [is_enabled] and, at most, [enable]; what it
    lets through is neither of the two exceptions it handles. *)
Lemma enable_napp_cases (m : M) :
  ∃ r m1 t, NAppsAPI.enable_napp m = (r, m1, t)
    ∧ (calls t = [CallIsEnabled] ∨ calls t = [CallIsEnabled; CallEnable])
    ∧ (∀ e, r = Raised e →
         is_FileNotFoundError e || is_PermissionError e = false).
Proof.
  destruct (NAppsManager.is_enabled m) eqn:Hen.
  { eexists _, _, _. split; [by apply enable_napp_already|].
    split; [by left | done]. }
  destruct (NAppsManager.enable m) as [e|m1] eqn:Hcall.
  - destruct (is_FileNotFoundError e || is_PermissionError e) eqn:He.
    + eexists _, _, _. split; [by eapply enable_napp_handled|].
      split; [by right | done].
    + eexists _, _, _. split; [by eapply enable_napp_raises|].
      split; [by right | by intros ? [= <-]].
  - eexists _, _, _. split; [by eapply enable_napp_ok|].
    split; [by right | done].
Qed.

(** The run of [install_napp] when the local installation succeeds. *)
Lemma install_napp_local (m m1 : M) :
  NAppsManager.install_local m = inr m1 →
  NAppsAPI.install_napp m
  = let '(r, m2, t) := NAppsAPI.enable_napp m1 in
    (r, m2,
     [Log INFO "  Searching local NApp..."; Call CallInstallLocal;
      Log INFO "  Installed."] ++ t).
Proof.
  intros Hloc.
  destruct (enable_napp_cases m1) as (r & m2 & t & Hrun & _ & Hr).
  rewrite Hrun. unfold NAppsAPI.install_napp, try_except, bind, invoke, log.
  rewrite Hloc, Hrun. simpl. destruct r as [[]|e]; [done|].
  specialize (Hr e eq_refl). apply orb_false_iff in Hr as [-> _]. done.
Qed.

(** The run of [install_napp] when the local installation raises
    anything but [FileNotFoundError]. *)
Lemma install_napp_local_raises (m : M) (e : exn) :
  NAppsManager.install_local m = inl e →
  is_FileNotFoundError e = false →
  NAppsAPI.install_napp m
  = (Raised e, m,
     [Log INFO "  Searching local NApp..."; Call CallInstallLocal]).
Proof.
  intros Hloc He. unfold NAppsAPI.install_napp, try_except, bind, invoke, log.
  rewrite Hloc. simpl. by rewrite He.
Qed.

(** The runs of [install_napp] when the local installation raises
    [FileNotFoundError]. *)
Lemma install_napp_remote (m m1 : M) (msg : string) :
  NAppsManager.install_local m = inl (FileNotFoundError msg) →
  NAppsManager.install_remote m = inr m1 →
  NAppsAPI.install_napp m
  = let '(r, m2, t) := NAppsAPI.enable_napp m1 in
    let t1 :=
      [Log INFO "  Searching local NApp..."; Call CallInstallLocal;
       Log INFO "  Downloading from NApps Server..."; Call CallInstallRemote;
       Log INFO "  Installed."] ++ t in
    match r with
    | Raised (HTTPError code msg1) =>
        (Returned tt, m2,
         t1 ++ [Log ERROR (if decide (code = 404) then "  NApp not found."
                           else "  NApps Server error: "
                                +:+ exn_str (HTTPError code msg1))])
    | _ => (r, m2, t1)
    end.
Proof.
  intros Hloc Hrem.
  destruct (NAppsAPI.enable_napp m1) as [[r m2] t] eqn:Hrun.
  unfold NAppsAPI.install_napp, try_except, bind, invoke, log.
  rewrite Hloc. simpl. rewrite Hrem, Hrun. simpl.
  destruct r as [[]|[]]; try done.
  by case_decide.
Qed.

Lemma install_napp_remote_http (m : M) (msg : string) (code : Z) (msg1 : string) :
  NAppsManager.install_local m = inl (FileNotFoundError msg) →
  NAppsManager.install_remote m = inl (HTTPError code msg1) →
  NAppsAPI.install_napp m
  = (Returned tt, m,
     [Log INFO "  Searching local NApp..."; Call CallInstallLocal;
      Log INFO "  Downloading from NApps Server..."; Call CallInstallRemote;
      Log ERROR (if decide (code = 404) then "  NApp not found."
                 else "  NApps Server error: "
                      +:+ exn_str (HTTPError code msg1))]).
Proof.
  intros Hloc Hrem. unfold NAppsAPI.install_napp, try_except, bind, invoke, log.
  rewrite Hloc. simpl. rewrite Hrem. simpl. by case_decide.
Qed.

Lemma install_napp_remote_raises (m : M) (msg : string) (e : exn) :
  NAppsManager.install_local m = inl (FileNotFoundError msg) →
  NAppsManager.install_remote m = inl e →
  is_HTTPError e = false →
  NAppsAPI.install_napp m
  = (Raised e, m,
     [Log INFO "  Searching local NApp..."; Call CallInstallLocal;
      Log INFO "  Downloading from NApps Server..."; Call CallInstallRemote]).
Proof.
  intros Hloc Hrem He. unfold NAppsAPI.install_napp, try_except, bind, invoke, log.
  rewrite Hloc. simpl. rewrite Hrem. simpl. by destruct e.
Qed.

(** After a successful installation, local or remote, [install_napp]
    ends with [enable_napp]. *)
Lemma install_napp_then_enable (m m1 m2 : M) (t : list event) :
  NAppsManager.install_local m = inr m1
  ∨ (∃ msg, NAppsManager.install_local m = inl (FileNotFoundError msg)
            ∧ NAppsManager.install_remote m = inr m1) →
  NAppsAPI.enable_napp m1 = (Returned tt, m2, t) →
  ∃ t0, NAppsAPI.install_napp m = (Returned tt, m2, t0 ++ t)
        ∧ CallEnable ∉ calls t0.
Proof.
  intros [Hloc | (msg & Hloc & Hrem)] Hrun.
  - erewrite install_napp_local by done. rewrite Hrun.
    eexists. split; [done|]. simpl.
    rewrite list_elem_of_singleton. done.
  - erewrite install_napp_remote by done. rewrite Hrun.
    eexists. split; [done|]. simpl.
    rewrite !elem_of_cons, elem_of_nil. intros [|[|]]; done.
Qed.

End InstallNApp.

(** ** The install verb *)

Section Install.
Context {M : Type} {mgr : NAppsManager.t M}.

(** The loop of [install], one identity at a time. *)
Lemma install_cons (n : napp) (ns : list napp) (p : string) (m : M) :
  NAppsAPI.install (Args (n :: ns) p) m
  = let m0 := NAppsManager.set_napp n.1 n.2 m in
    let hd := [Call (CallSetNapp n.1 n.2);
               Log INFO ("NApp " +:+ NAppsManager.napp_id m0 +:+ ":");
               Call CallIsInstalled] in
    if NAppsManager.is_installed m0
    then let '(r, m2, t2) := NAppsAPI.install (Args ns p) m0 in
         (r, m2, hd ++ Log INFO "  Installed." :: t2)
    else match NAppsAPI.install_napp m0 with
         | (Returned _, m1, t1) =>
             let '(r, m2, t2) := NAppsAPI.install (Args ns p) m1 in
             (r, m2, hd ++ t1 ++ t2)
         | (Raised e, m1, t1) => (Raised e, m1, hd ++ t1)
         end.
Proof.
  unfold NAppsAPI.install. simpl. unfold NAppsAPI.select, bind, update, attr, log, query.
  simpl. destruct (NAppsManager.is_installed _); simpl.
  - by destruct (for_each _ _ _) as [[??]?].
  - destruct (NAppsAPI.install_napp _) as [[[[]|e] m1] t1]; simpl; [|done].
    by destruct (for_each _ _ _) as [[??]?].
Qed.

(** C10. For an identity that is already installed, the install verb
    does not change the state: after choosing the identity it only asks
    [is_installed] and logs "Installed."; it calls neither an install
    method nor [enable], and goes on with the rest of the batch.  An
    installed and disabled NApp therefore stays disabled. *)
Theorem install_of_installed_changes_nothing
    (n : napp) (ns : list napp) (p : string) (m : M) :
  NAppsManager.is_installed (NAppsManager.set_napp n.1 n.2 m) = true →
  let m0 := NAppsManager.set_napp n.1 n.2 m in
  NAppsAPI.install (Args [n] p) m
  = (Returned tt, m0,
     [Call (CallSetNapp n.1 n.2);
      Log INFO ("NApp " +:+ NAppsManager.napp_id m0 +:+ ":");
      Call CallIsInstalled; Log INFO "  Installed."])
  ∧ NAppsAPI.install (Args (n :: ns) p) m
    = let '(r, m2, t2) := NAppsAPI.install (Args ns p) m0 in
      (r, m2,
       [Call (CallSetNapp n.1 n.2);
        Log INFO ("NApp " +:+ NAppsManager.napp_id m0 +:+ ":");
        Call CallIsInstalled; Log INFO "  Installed."] ++ t2).
Proof.
  intros Hin m0. subst m0. rewrite !install_cons. cbv zeta. rewrite Hin.
  split; [done|]. by destruct (NAppsAPI.install _ _) as [[??]?].
Qed.

(** The manager methods [install_napp] calls. *)
Lemma install_napp_calls (m : M) :
  calls (trace (NAppsAPI.install_napp m))
  = match NAppsManager.install_local m with
    | inr m1 => CallInstallLocal :: calls (trace (NAppsAPI.enable_napp m1))
    | inl (FileNotFoundError _) =>
        CallInstallLocal :: CallInstallRemote ::
          match NAppsManager.install_remote m with
          | inr m1 => calls (trace (NAppsAPI.enable_napp m1))
          | inl _ => []
          end
    | inl _ => [CallInstallLocal]
    end.
Proof.
  destruct (NAppsManager.install_local m) as [e|m1] eqn:Hloc.
  - destruct (is_FileNotFoundError e) eqn:He.
    + destruct e as [msg| | |]; try done.
      destruct (NAppsManager.install_remote m) as [e|m1] eqn:Hrem.
      * destruct (is_HTTPError e) eqn:He1.
        -- destruct e; try done. by erewrite install_napp_remote_http.
        -- by erewrite install_napp_remote_raises.
      * erewrite install_napp_remote by done.
        destruct (NAppsAPI.enable_napp m1) as [[r m2] t].
        destruct r as [[]|[]]; try done.
        unfold trace; simpl. rewrite calls_app. simpl. by rewrite app_nil_r.
    + erewrite install_napp_local_raises by done. by destruct e.
  - erewrite install_napp_local by done.
    by destruct (NAppsAPI.enable_napp m1) as [[r m2] t].
Qed.

Lemma enable_napp_no_remote (m : M) :
  CallInstallRemote ∉ calls (trace (NAppsAPI.enable_napp m)).
Proof.
  destruct (enable_napp_cases m) as (r & m2 & t & -> & Hc & _).
  unfold trace; simpl.
  destruct Hc as [-> | ->];
    repeat (apply not_elem_of_cons; split; [done|]); apply not_elem_of_nil.
Qed.

Lemma install_napp_remote_iff (m : M) :
  CallInstallRemote ∈ calls (trace (NAppsAPI.install_napp m))
  ↔ ∃ msg, NAppsManager.install_local m = inl (FileNotFoundError msg).
Proof.
  rewrite install_napp_calls.
  destruct (NAppsManager.install_local m) as [[msg| | |]|m1].
  - split; [eauto|]. intros _. rewrite !elem_of_cons. auto.
  - split; [|intros [? [=]]]. by rewrite list_elem_of_singleton.
  - split; [|intros [? [=]]]. by rewrite list_elem_of_singleton.
  - split; [|intros [? [=]]]. by rewrite list_elem_of_singleton.
  - split; [|intros [? [=]]]. rewrite elem_of_cons.
    intros [?|?%enable_napp_no_remote]; done.
Qed.

(** The manager methods the install verb calls for one identity. *)
Lemma install_single_calls (n : napp) (p : string) (m : M) :
  let m0 := NAppsManager.set_napp n.1 n.2 m in
  calls (trace (NAppsAPI.install (Args [n] p) m))
  = CallSetNapp n.1 n.2 :: CallIsInstalled ::
      (if NAppsManager.is_installed m0 then []
       else calls (trace (NAppsAPI.install_napp m0))).
Proof.
  intros m0. rewrite install_cons. fold m0. cbv zeta.
  destruct (NAppsManager.is_installed m0); [done|].
  destruct (NAppsAPI.install_napp m0) as [[[[]|e] m1] t1]; unfold trace; simpl.
  - by rewrite app_nil_r.
  - done.
Qed.

(** C2. [install_napp] calls [install_local] before any other method of
    the manager, and calls [install_remote] exactly when [install_local]
    raised [FileNotFoundError].  When the local installation succeeds the
    registry is not contacted; when it raises another exception that
    exception leaves [install_napp] and the registry is not contacted.
    The install verb, for one identity, contacts the registry exactly when
    the NApp is not installed and [install_local] raised
    [FileNotFoundError]. *)
Theorem install_local_first_remote_on_not_found (m : M) :
  (∃ cs, calls (trace (NAppsAPI.install_napp m)) = CallInstallLocal :: cs)
  ∧ (CallInstallRemote ∈ calls (trace (NAppsAPI.install_napp m))
     ↔ ∃ msg, NAppsManager.install_local m = inl (FileNotFoundError msg))
  ∧ (∀ m1, NAppsManager.install_local m = inr m1 →
       Call CallInstallRemote ∉ trace (NAppsAPI.install_napp m))
  ∧ (∀ e, NAppsManager.install_local m = inl e →
       is_FileNotFoundError e = false →
       NAppsAPI.install_napp m
       = (Raised e, m,
          [Log INFO "  Searching local NApp..."; Call CallInstallLocal]))
  ∧ (∀ (n : napp) (p : string),
       let m0 := NAppsManager.set_napp n.1 n.2 m in
       CallInstallRemote ∈ calls (trace (NAppsAPI.install (Args [n] p) m))
       ↔ NAppsManager.is_installed m0 = false
         ∧ ∃ msg, NAppsManager.install_local m0 = inl (FileNotFoundError msg)).
Proof.
  split_and!.
  - rewrite install_napp_calls.
    destruct (NAppsManager.install_local m) as [[]|]; eauto.
  - apply install_napp_remote_iff.
  - intros m1 Hloc. rewrite <- elem_of_calls, install_napp_remote_iff, Hloc.
    by intros [? [=]].
  - intros e Hloc He. by apply install_napp_local_raises.
  - intros n p m0. rewrite install_single_calls. fold m0. cbv zeta.
    rewrite !elem_of_cons. destruct (NAppsManager.is_installed m0).
    + rewrite elem_of_nil. split; [intros [|[|]]; done|by intros [[=] _]].
    + rewrite install_napp_remote_iff. split; [|tauto].
      intros [|[|]]; done.
Qed.

(** C6. When the local installation raised [FileNotFoundError] and the
    remote installation raises [HTTPError], [install_napp] returns
    normally: code 404 is logged as "NApp not found.", any other code as
    "NApps Server error:" followed by the text of the error (status code
    and reason), both at level ERROR; the verb goes on with the next
    identity. *)
Theorem remote_http_error_is_logged
    (n : napp) (ns : list napp) (p : string) (m : M)
    (msg0 : string) (code : Z) (msg : string) :
  let m0 := NAppsManager.set_napp n.1 n.2 m in
  let t1 :=
    [Log INFO "  Searching local NApp..."; Call CallInstallLocal;
     Log INFO "  Downloading from NApps Server..."; Call CallInstallRemote;
     Log ERROR (if decide (code = 404) then "  NApp not found."
                else "  NApps Server error: HTTP Error "
                     +:+ pretty code +:+ ": " +:+ msg)] in
  NAppsManager.is_installed m0 = false →
  NAppsManager.install_local m0 = inl (FileNotFoundError msg0) →
  NAppsManager.install_remote m0 = inl (HTTPError code msg) →
  NAppsAPI.install_napp m0 = (Returned tt, m0, t1)
  ∧ NAppsAPI.install (Args (n :: ns) p) m
    = let '(r, m2, t2) := NAppsAPI.install (Args ns p) m0 in
      (r, m2,
       [Call (CallSetNapp n.1 n.2);
        Log INFO ("NApp " +:+ NAppsManager.napp_id m0 +:+ ":");
        Call CallIsInstalled] ++ t1 ++ t2).
Proof.
  intros m0 t1 Hin Hloc Hrem.
  assert (Hrun : NAppsAPI.install_napp m0 = (Returned tt, m0, t1)).
  { erewrite install_napp_remote_http by done. subst t1.
    by case_decide. }
  split; [done|]. rewrite install_cons. fold m0. cbv zeta.
  rewrite Hin, Hrun. done.
Qed.

End Install.

(** ** Batches *)

Section Batch.
Context {M : Type} {mgr : NAppsManager.t M}.

(** A loop whose body starts with [select] and returns normally on the
    managers that satisfy [P] takes up every identity. *)
Lemma for_each_select (P : M → Prop) (body : api M unit) (ns : list napp) (m : M) :
  (∀ u n m, P m → P (NAppsManager.set_napp u n m)) →
  (∀ m, P m → outcome (body m) = Returned tt ∧ P (final (body m))
              ∧ selected (trace (body m)) = []) →
  P m →
  let r := for_each ns (λ n, NAppsAPI.select n ;;; body) m in
  outcome r = Returned tt ∧ P (final r) ∧ selected (trace r) = ns.
Proof.
  intros Hset Hbody. revert m. induction ns as [|[u n] ns IH]; intros m Hm.
  { by simpl. }
  simpl. unfold bind at 1. unfold NAppsAPI.select, bind, update, attr, log.
  simpl. specialize (Hset u n m Hm).
  destruct (Hbody _ Hset) as (Hr & Hp & Hs).
  destruct (body _) as [[r m1] t1]. unfold outcome, final, trace in *.
  simpl in *. subst r. destruct (IH m1 Hp) as (Hr2 & Hp2 & Hs2).
  destruct (for_each _ _ _) as [[r2 m2] t2]. simpl in *.
  split_and!; [done..|]. unfold selected in *. simpl.
  rewrite omap_app, Hs, Hs2. done.
Qed.

Context (P : M → Prop) (HP : handled_failures P).

Lemma enable_napp_returns (m : M) :
  P m →
  ∃ m1 t, NAppsAPI.enable_napp m = (Returned tt, m1, t)
          ∧ P m1 ∧ selected t = [].
Proof.
  intros Hm. destruct (NAppsManager.is_enabled m) eqn:Hen.
  { eexists _, _. split; [by apply enable_napp_already|done]. }
  destruct (NAppsManager.enable m) as [e|m1] eqn:Hcall.
  - eexists _, _. split.
    { eapply enable_napp_handled; eauto using enable_raises. }
    done.
  - eexists _, _. split; [by eapply enable_napp_ok|].
    split; [|done]. by eapply (keeps_enable P HP).
Qed.

Lemma disable_napp_returns (m : M) :
  P m →
  ∃ m1 t, NAppsAPI.disable_napp m = (Returned tt, m1, t)
          ∧ P m1 ∧ selected t = [].
Proof.
  intros Hm. destruct (NAppsManager.is_enabled m) eqn:Hen.
  - destruct (NAppsManager.disable m) as [e|m1] eqn:Hcall.
    + by destruct (disable_raises P HP m e).
    + eexists _, _. split; [by eapply disable_napp_ok|].
      split; [|done]. by eapply (keeps_disable P HP).
  - eexists _, _. split; [by apply disable_napp_already|done].
Qed.

Lemma install_napp_returns (m : M) :
  P m →
  ∃ m1 t, NAppsAPI.install_napp m = (Returned tt, m1, t)
          ∧ P m1 ∧ selected t = [].
Proof.
  intros Hm. destruct (NAppsManager.install_local m) as [e|m1] eqn:Hloc.
  - pose proof (install_local_raises P HP m e Hm Hloc) as He.
    destruct e as [msg| | |]; try done.
    destruct (NAppsManager.install_remote m) as [e|m1] eqn:Hrem.
    + pose proof (install_remote_raises P HP m e Hm Hrem) as He1.
      destruct e as [| |code msg1|]; try done.
      eexists _, _. split; [by eapply install_napp_remote_http|done].
    + assert (Hm1 : P m1) by (by eapply (keeps_install_remote P HP)).
      destruct (enable_napp_returns m1 Hm1) as (m2 & t & Hrun & Hm2 & Hs).
      eexists _, _. split.
      { erewrite install_napp_remote by done. by rewrite Hrun. }
      split; [done|]. unfold selected in *. rewrite omap_app, Hs. done.
  - assert (Hm1 : P m1) by (by eapply (keeps_install_local P HP)).
    destruct (enable_napp_returns m1 Hm1) as (m2 & t & Hrun & Hm2 & Hs).
    eexists _, _. split.
    { erewrite install_napp_local by done. by rewrite Hrun. }
    split; [done|]. unfold selected in *. rewrite omap_app, Hs. done.
Qed.

(** C5 (amended). On the managers whose failures are among those the
    verbs handle ([handled_failures]), every batch verb (enable, disable,
    install, uninstall) returns normally and takes up every identity of
    the batch, in order.  The handled failures are logged at level ERROR
    and the helper returns normally: an exception of [enable] that is a
    [FileNotFoundError] or a [PermissionError], and an [HTTPError] of the
    remote installation. *)
Theorem batch_continues_after_handled_failure
    (v : verb) (ns : list napp) (p : string) (m : M) :
  P m →
  (let r := run_verb v (Args ns p) m in
   outcome r = Returned tt ∧ selected (trace r) = ns ∧ P (final r))
  ∧ (∀ e, NAppsManager.is_enabled m = false →
       NAppsManager.enable m = inl e →
       NAppsAPI.enable_napp m
       = (Returned tt, m,
          [Call CallIsEnabled; Log INFO "  Enabling..."; Call CallEnable;
           Log ERROR ("  " +:+ exn_str e)]))
  ∧ (∀ msg e, NAppsManager.install_local m = inl (FileNotFoundError msg) →
       NAppsManager.install_remote m = inl e →
       ∃ msg1, outcome (NAppsAPI.install_napp m) = Returned tt
               ∧ last (trace (NAppsAPI.install_napp m))
                 = Some (Log ERROR msg1)).
Proof.
  intros Hm. split_and!.
  - cut (let r := run_verb v (Args ns p) m in
         outcome r = Returned tt ∧ P (final r) ∧ selected (trace r) = ns).
    { simpl. tauto. }
    destruct v; simpl;
      [unfold NAppsAPI.enable | unfold NAppsAPI.disable
      | unfold NAppsAPI.install | unfold NAppsAPI.uninstall]; simpl;
      (apply (for_each_select P); [apply (keeps_set_napp P HP)| |done]).
    + intros m0 Hm0.
      by destruct (enable_napp_returns m0 Hm0) as (m1 & t & -> & ? & ?).
    + intros m0 Hm0.
      by destruct (disable_napp_returns m0 Hm0) as (m1 & t & -> & ? & ?).
    + intros m0 Hm0. unfold bind, query.
      destruct (NAppsManager.is_installed m0); simpl; [done|].
      destruct (install_napp_returns m0 Hm0) as (m1 & t & -> & ? & Hs).
      unfold selected in *. by simpl.
    + intros m0 Hm0. unfold bind, query, log, invoke, ret.
      destruct (NAppsManager.is_installed m0); simpl; [|done].
      destruct (NAppsManager.uninstall m0) as [e|m1] eqn:Hun.
      { by destruct (uninstall_raises P HP m0 e). }
      assert (Hm1 : P m1) by (by eapply (keeps_uninstall P HP)).
      destruct (disable_napp_returns m1 Hm1) as (m2 & t & -> & ? & Hs).
      simpl. split_and!; [done..|].
      unfold trace, selected in *. simpl. by rewrite omap_app, Hs.
  - intros e Hen Hcall. eapply enable_napp_handled; eauto using enable_raises.
  - intros msg e Hloc Hrem.
    pose proof (install_remote_raises P HP m e Hm Hrem) as He.
    destruct e as [| |code msg1|]; try done.
    erewrite install_napp_remote_http by done. eauto.
Qed.

End Batch.

(** ** The lifecycle on the model of the manager *)

Section Lifecycle.
Implicit Types (s : store) (n : napp).

Lemma state_of_ENABLED s n :
  state_of s n = ENABLED ↔ n ∈ dom (installed s) ∧ n ∈ enabled s.
Proof.
  unfold state_of. do 2 case_bool_decide; split; try done; tauto.
Qed.

Lemma state_of_INSTALLED s n :
  state_of s n = INSTALLED ↔ (n ∈ dom (installed s)) ∧ (n ∉ enabled s).
Proof.
  unfold state_of. do 2 case_bool_decide; split; try done; tauto.
Qed.



(** The failures of the model are handled as long as the installed root
    can be written. *)
Lemma store_handled_failures :
  handled_failures (λ s, ro_installed s = false).
Proof.
  split; simpl.
  - done.
  - intros s s1 Hs. unfold StoreManager.enable.
    repeat case_match; naive_solver.
  - intros s s1 Hs [= <-]. done.
  - intros s s1 Hs [= <-]. done.
  - intros s s1 Hs. unfold StoreManager.install_local.
    repeat case_match; naive_solver.
  - intros s s1 Hs. unfold StoreManager.install_remote.
    repeat case_match; naive_solver.
  - intros s e Hs. unfold StoreManager.enable.
    repeat case_match; naive_solver.
  - done.
  - done.
  - intros s e Hs. unfold StoreManager.install_local. rewrite Hs.
    repeat case_match; naive_solver.
  - intros s e Hs. unfold StoreManager.install_remote. rewrite Hs.
    repeat case_match; naive_solver.
Qed.


(** What the model's methods answer once [set_napp] has chosen [n]. *)
Lemma is_enabled_set_napp s n :
  StoreManager.is_enabled (StoreManager.set_napp n.1 n.2 s)
  = bool_decide (n ∈ enabled s).
Proof. by destruct n. Qed.

Lemma is_installed_set_napp s n :
  StoreManager.is_installed (StoreManager.set_napp n.1 n.2 s)
  = bool_decide (n ∈ dom (installed s)).
Proof. by destruct n. Qed.

Lemma set_napp_current s :
  StoreManager.set_napp (current s).1 (current s).2 s = s.
Proof. by destruct s as [[??] ???????]. Qed.

(** [enable_napp] on the model, where it never lets an exception
    through. *)
Lemma store_enable_napp s :
  ∃ t, NAppsAPI.enable_napp s
       = (Returned tt,
          (if StoreManager.is_enabled s then s
           else if negb (StoreManager.is_installed s) then s
           else if ro_enabled s then s
           else StoreManager.with_enabled ({[current s]} ∪ enabled s) s),
          t)
     ∧ (CallEnable ∈ calls t ↔ StoreManager.is_enabled s = false)
     ∧ (StoreManager.is_enabled s = false →
        StoreManager.is_installed s = true → ro_enabled s = true →
        Log ERROR "  Permission denied" ∈ t).
Proof.
  destruct (StoreManager.is_enabled s) eqn:Hen.
  { eexists. split; [by apply enable_napp_already|]. split; [|done].
    split; [|done]. simpl. by rewrite list_elem_of_singleton. }
  destruct (StoreManager.is_installed s) eqn:Hin; simpl.
  - destruct (ro_enabled s) eqn:Hro.
    + eexists. split.
      { eapply enable_napp_handled; [done| |]; simpl.
        - unfold StoreManager.enable. by rewrite Hin, Hro.
        - done. }
      split; [split; [done|intros _; simpl; rewrite !elem_of_cons; auto]|].
      intros _ _ _. simpl. rewrite !elem_of_cons. auto.
    + eexists. split.
      { eapply enable_napp_ok; [done|]; simpl.
        unfold StoreManager.enable. by rewrite Hin, Hro. }
      split; [|done].
      split; [done|intros _; simpl; rewrite !elem_of_cons; auto].
  - eexists. split.
    { eapply enable_napp_handled; [done| |]; simpl.
      - unfold StoreManager.enable. by rewrite Hin.
      - done. }
    split; [|done].
    split; [done|intros _; simpl; rewrite !elem_of_cons; auto].
Qed.

(** C3 (amended). When the installation of a NApp that was not
    installed succeeds, from the local source or else from the registry,
    [enable_napp] runs next: [mgr.enable()] is called unless the NApp is
    already enabled, and the NApp ends ENABLED unless that call fails.
    When access to the enabled root is denied, the [PermissionError] is
    logged, the verb returns normally and the NApp ends INSTALLED. *)
Theorem install_enables_unless_enable_fails s n (p : string) :
  n ∉ dom (installed s) →
  ro_installed s = false →
  is_Some (local_src s !! n)
  ∨ (server_error s = None ∧ is_Some (served_description s n)) →
  let r := NAppsAPI.install (Args [n] p) s in
  outcome r = Returned tt
  ∧ (CallEnable ∈ calls (trace r) ↔ n ∉ enabled s)
  ∧ (n ∈ enabled s ∨ ro_enabled s = false → state_of (final r) n = ENABLED)
  ∧ (n ∉ enabled s → ro_enabled s = true →
       state_of (final r) n = INSTALLED
       ∧ Log ERROR "  Permission denied" ∈ trace r).
Proof.
  intros Hni Hro Hsrc r. subst r.
  set (s0 := StoreManager.set_napp n.1 n.2 s).
  assert (Hcur : current s0 = n) by by destruct n.
  assert (∃ d, let s1 := StoreManager.with_installed (<[n:=d]> (installed s)) s0 in
    NAppsManager.install_local s0 = inr s1
    ∨ (∃ msg, NAppsManager.install_local s0 = inl (FileNotFoundError msg)
              ∧ NAppsManager.install_remote s0 = inr s1))
    as (d & Hinst).
  { simpl. unfold StoreManager.install_local, StoreManager.install_remote.
    rewrite Hcur. simpl. rewrite Hro.
    destruct (local_src s !! n) as [d|] eqn:Hl.
    - exists d. by left.
    - destruct Hsrc as [[? [=]]|[-> [d Hd]]]. exists d. right.
      unfold served_description in *. simpl. rewrite Hd. eauto. }
  simpl in Hinst.
  set (s1 := StoreManager.with_installed (<[n:=d]> (installed s)) s0) in *.
  destruct (store_enable_napp s1) as (t & Hrun & Hcalls & Hlog).
  assert (Hen1 : StoreManager.is_enabled s1 = bool_decide (n ∈ enabled s)).
  { unfold StoreManager.is_enabled. simpl. by destruct n. }
  assert (Hin1 : StoreManager.is_installed s1 = true).
  { unfold StoreManager.is_installed. simpl. apply bool_decide_eq_true.
    replace (n.1, n.2) with n by by destruct n.
    apply elem_of_dom. rewrite lookup_insert_eq. eauto. }
  rewrite Hen1, Hin1 in *. simpl in *.
  destruct (install_napp_then_enable (mgr:=StoreManager.manager)
              s0 s1 _ _ Hinst Hrun) as (t0 & Hrun0 & Ht0).
  rewrite install_cons. cbv zeta.
  change (NAppsManager.set_napp n.1 n.2 s) with s0.
  replace (NAppsManager.is_installed s0) with false; last first.
  { symmetry.
    change (StoreManager.is_installed (StoreManager.set_napp n.1 n.2 s) = false).
    rewrite is_installed_set_napp. by apply bool_decide_eq_false. }
  rewrite Hrun0. unfold outcome, final, trace. simpl.
  rewrite !app_nil_r, !calls_app.
  split; [done|]. split.
  { rewrite !elem_of_cons, elem_of_app, Hcalls, bool_decide_eq_false.
    split; [|tauto]. intros [|[|[|]]]; done. }
  assert (Hdom : n ∈ dom (<[n:=d]> (installed s))).
  { apply elem_of_dom. rewrite lookup_insert_eq. eauto. }
  split.
  - intros Hok. apply state_of_ENABLED. case_bool_decide as Hen.
    + done.
    + destruct Hok as [?| ->]; [done|]. split; [done|].
      simpl. replace (n.1, n.2) with n by by destruct n.
      apply elem_of_union_l, elem_of_singleton. done.
  - intros Hen Hroe. rewrite bool_decide_eq_false_2 in * by done.
    rewrite Hroe in *. split.
    + by apply state_of_INSTALLED.
    + rewrite !elem_of_cons, elem_of_app. right. right. right. right.
      by apply Hlog.
Qed.

Lemma enable_single n (p : string) s :
  NAppsAPI.enable (Args [n] p) s
  = let s0 := StoreManager.set_napp n.1 n.2 s in
    let '(r, s1, t) := NAppsAPI.enable_napp s0 in
    (r, s1, [Call (CallSetNapp n.1 n.2);
             Log INFO ("NApp " +:+ napp_name n +:+ ":")] ++ t).
Proof.
  unfold NAppsAPI.enable, NAppsAPI.select, for_each, bind, update, attr, log, ret.
  simpl. destruct (NAppsAPI.enable_napp _) as [[[[]|e] s1] t]; simpl.
  - rewrite app_nil_r. by destruct n.
  - by destruct n.
Qed.

Lemma disable_single n (p : string) s :
  NAppsAPI.disable (Args [n] p) s
  = let s0 := StoreManager.set_napp n.1 n.2 s in
    let '(r, s1, t) := NAppsAPI.disable_napp s0 in
    (r, s1, [Call (CallSetNapp n.1 n.2);
             Log INFO ("NApp " +:+ napp_name n +:+ ":")] ++ t).
Proof.
  unfold NAppsAPI.disable, NAppsAPI.select, for_each, bind, update, attr, log, ret.
  simpl. destruct (NAppsAPI.disable_napp _) as [[[[]|e] s1] t]; simpl.
  - rewrite app_nil_r. by destruct n.
  - by destruct n.
Qed.

(** C4. For every identity and every state of the model, running the
    enable verb twice ends in the same state as running it once, and so
    for the disable verb; both return normally.  Enabling a NApp that is
    enabled and disabling a NApp that is not enabled call no method that
    changes the manager and log "Enabled." and "Disabled.". *)
Theorem enable_disable_idempotent s n (p : string) :
  let a := Args [n] p in
  (final (NAppsAPI.enable a (final (NAppsAPI.enable a s)))
   = final (NAppsAPI.enable a s)
   ∧ outcome (NAppsAPI.enable a s) = Returned tt)
  ∧ (final (NAppsAPI.disable a (final (NAppsAPI.disable a s)))
     = final (NAppsAPI.disable a s)
     ∧ outcome (NAppsAPI.disable a s) = Returned tt)
  ∧ (n ∈ enabled s →
     NAppsAPI.enable a s
     = (Returned tt, StoreManager.set_napp n.1 n.2 s,
        [Call (CallSetNapp n.1 n.2);
         Log INFO ("NApp " +:+ napp_name n +:+ ":");
         Call CallIsEnabled; Log INFO "  Enabled."]))
  ∧ (n ∉ enabled s →
     NAppsAPI.disable a s
     = (Returned tt, StoreManager.set_napp n.1 n.2 s,
        [Call (CallSetNapp n.1 n.2);
         Log INFO ("NApp " +:+ napp_name n +:+ ":");
         Call CallIsEnabled; Log INFO "  Disabled."])).
Proof.
  intros a. subst a.
  set (s0 := StoreManager.set_napp n.1 n.2 s).
  assert (Hcur : current s0 = n) by by destruct n.
  split_and!.
  - rewrite !enable_single. fold s0. cbv zeta.
    destruct (store_enable_napp s0) as (t & -> & _).
    unfold final. simpl.
    match goal with |- context [StoreManager.set_napp _ _ ?x] =>
      set (s1 := x) end.
    replace (StoreManager.set_napp n.1 n.2 s1) with s1; last first.
    { subst s1. repeat case_match; done. }
    destruct (store_enable_napp s1) as (t1 & -> & _). simpl.
    subst s1. destruct (StoreManager.is_enabled s0) eqn:Hen; [by rewrite Hen|].
    destruct (StoreManager.is_installed s0) eqn:Hin; simpl;
      [|by rewrite Hen, Hin].
    destruct (ro_enabled s) eqn:Hro.
    { rewrite Hen, Hin. simpl. change (ro_enabled s0) with (ro_enabled s).
      by rewrite Hro. }
    replace (StoreManager.is_enabled (StoreManager.with_enabled _ s0))
      with true; [done|].
    symmetry. apply bool_decide_eq_true. simpl.
    apply elem_of_union_l, elem_of_singleton. done.
  - rewrite !enable_single. fold s0. cbv zeta.
    by destruct (store_enable_napp s0) as (t & -> & _).
  - rewrite !disable_single. fold s0. cbv zeta.
    destruct (StoreManager.is_enabled s0) eqn:Hen.
    + erewrite (disable_napp_ok s0) by done.
      unfold final. simpl.
      erewrite disable_napp_already; [by destruct n|].
      apply bool_decide_eq_false. simpl.
      rewrite elem_of_difference, elem_of_singleton. tauto.
    + rewrite (disable_napp_already s0) by done.
      unfold final. simpl.
      rewrite disable_napp_already; [by destruct n|]. by destruct n.
  - rewrite !disable_single. fold s0. cbv zeta.
    destruct (StoreManager.is_enabled s0) eqn:Hen.
    + by erewrite (disable_napp_ok s0) by done.
    + by rewrite (disable_napp_already s0) by done.
  - intros Hen. rewrite enable_single. fold s0. cbv zeta.
    rewrite enable_napp_already; [done|].
    change (StoreManager.is_enabled s0 = true). subst s0.
    rewrite is_enabled_set_napp. by apply bool_decide_eq_true.
  - intros Hen. rewrite disable_single. fold s0. cbv zeta.
    rewrite disable_napp_already; [done|].
    change (StoreManager.is_enabled s0 = false). subst s0.
    rewrite is_enabled_set_napp. by apply bool_decide_eq_false.
Qed.

End Lifecycle.

(** ** Concrete runs *)

Ltac decide_by_computation :=
  apply (bool_decide_unpack _); vm_compute; exact I.



(** C3, as stated, fails: the local installation succeeds and "Installed."
    is logged, but access to the enabled root is denied, [mgr.enable()]
    raises [PermissionError], and the NApp ends INSTALLED. *)
Lemma install_succeeds_without_enabling :
  let n : napp := ("dev", "topology") in
  let r := NAppsAPI.install (Args [n] "") ro_enabled_store in
  state_of ro_enabled_store n = ABSENT
  ∧ outcome r = Returned tt
  ∧ trace r
    = [Call (CallSetNapp "dev" "topology"); Log INFO "NApp dev/topology:";
       Call CallIsInstalled; Log INFO "  Searching local NApp...";
       Call CallInstallLocal; Log INFO "  Installed."; Call CallIsEnabled;
       Log INFO "  Enabling..."; Call CallEnable;
       Log ERROR "  Permission denied"]
  ∧ state_of (final r) n = INSTALLED
  ∧ state_of (final r) n ≠ ENABLED.
Proof. intros n r. split_and!; by vm_compute. Qed.

Lemma install_enables_unless_enable_fails_witness :
  let n : napp := ("dev", "topology") in
  let r := NAppsAPI.install (Args [n] "") demo_store in
  outcome r = Returned tt
  ∧ CallEnable ∈ calls (trace r)
  ∧ state_of (final r) n = ENABLED.
Proof.
  intros n r.
  destruct (install_enables_unless_enable_fails demo_store n "")
    as (H1 & H2 & H3 & _).
  - decide_by_computation.
  - reflexivity.
  - left. decide_by_computation.
  - split; [exact H1|]. split.
    + apply H2. decide_by_computation.
    + apply H3. by right.
Defined.

(** C5, as stated, fails: access to the installed root is denied, the
    local installation of the first NApp raises [PermissionError], which
    [install_napp] does not handle; the exception leaves the verb, nothing
    is logged at level ERROR and the second NApp is not taken up. *)
Lemma unhandled_failure_aborts_batch :
  let ns : list napp := [("dev", "topology"); ("kytos", "of_stats")] in
  let r := NAppsAPI.install (Args ns "") ro_installed_store in
  outcome r = Raised (PermissionError "Permission denied")
  ∧ trace r
    = [Call (CallSetNapp "dev" "topology"); Log INFO "NApp dev/topology:";
       Call CallIsInstalled; Log INFO "  Searching local NApp...";
       Call CallInstallLocal]
  ∧ selected (trace r) = [("dev", "topology")]
  ∧ ("kytos", "of_stats") ∉ selected (trace r).
Proof.
  intros ns r. split_and!; [by vm_compute..|].
  replace (selected (trace r)) with [("dev", "topology")] by by vm_compute.
  by rewrite list_elem_of_singleton.
Qed.

Lemma batch_continues_after_handled_failure_witness :
  let ns : list napp := [("dev", "topology"); ("ghost", "none"); ("kytos", "of_stats")] in
  let r := NAppsAPI.install (Args ns "") demo_store in
  ro_installed demo_store = false
  ∧ outcome r = Returned tt
  ∧ selected (trace r) = ns.
Proof.
  intros ns r. split; [reflexivity|].
  destruct (batch_continues_after_handled_failure
              (λ s, ro_installed s = false) store_handled_failures
              Install ns "" demo_store eq_refl) as [(H1 & H2 & _) _].
  split; [exact H1 | exact H2].
Defined.

Lemma remote_http_error_is_logged_witness :
  let n : napp := ("ghost", "none") in
  let s0 := StoreManager.set_napp n.1 n.2 failing_registry_store in
  StoreManager.is_installed s0 = false
  ∧ StoreManager.install_local s0 = inl (FileNotFoundError "NApp not found")
  ∧ StoreManager.install_remote s0
    = inl (HTTPError 500 "Internal Server Error")
  ∧ outcome (NAppsAPI.install_napp s0) = Returned tt
  ∧ trace (NAppsAPI.install_napp s0)
    = [Log INFO "  Searching local NApp..."; Call CallInstallLocal;
       Log INFO "  Downloading from NApps Server..."; Call CallInstallRemote;
       Log ERROR "  NApps Server error: HTTP Error 500: Internal Server Error"].
Proof.
  intros n s0.
  assert (H1 : StoreManager.is_installed s0 = false) by by vm_compute.
  assert (H2 : StoreManager.install_local s0
               = inl (FileNotFoundError "NApp not found")) by by vm_compute.
  assert (H3 : StoreManager.install_remote s0
               = inl (HTTPError 500 "Internal Server Error")) by by vm_compute.
  pose proof (proj1 (remote_http_error_is_logged (mgr:=StoreManager.manager)
                n [] "" failing_registry_store _ _ _ H1 H2 H3)) as H.
  cbv zeta in H.
  change (NAppsManager.set_napp n.1 n.2 failing_registry_store) with s0 in H.
  rewrite H. split_and!; [done..|]. by vm_compute.
Defined.

Lemma install_of_installed_changes_nothing_witness :
  let n : napp := ("kytos", "of_lldp") in
  let r := NAppsAPI.install (Args [n] "") demo_store in
  state_of demo_store n = INSTALLED
  ∧ outcome r = Returned tt
  ∧ calls (trace r) = [CallSetNapp "kytos" "of_lldp"; CallIsInstalled]
  ∧ state_of (final r) n = INSTALLED.
Proof.
  intros n r. split; [by vm_compute|].
  destruct (install_of_installed_changes_nothing (mgr:=StoreManager.manager)
              n [] "" demo_store) as [H _]; [by vm_compute|].
  subst r. rewrite H. split_and!; by vm_compute.
Defined.

Lemma install_local_first_remote_on_not_found_witness :
  let local : napp := ("dev", "topology") in
  let remote : napp := ("kytos", "of_stats") in
  (CallInstallRemote
   ∉ calls (trace (NAppsAPI.install (Args [local] "") demo_store)))
  ∧ (CallInstallRemote
     ∈ calls (trace (NAppsAPI.install (Args [remote] "") demo_store))).
Proof.
  intros local remote.
  destruct (install_local_first_remote_on_not_found
              (mgr:=StoreManager.manager) demo_store) as (_ & _ & _ & _ & H).
  split.
  - rewrite (H local ""). intros [_ [msg Hmsg]]. vm_compute in Hmsg.
    discriminate Hmsg.
  - apply (H remote ""). split; [by vm_compute|]. eexists. by vm_compute.
Defined.

(** Enabling twice, and disabling twice, on the sample store. *)
Lemma enable_disable_idempotent_witness :
  let a := Args [("kytos", "of_lldp")] "" in
  state_of demo_store ("kytos", "of_lldp") = INSTALLED
  ∧ state_of (final (NAppsAPI.enable a demo_store)) ("kytos", "of_lldp")
    = ENABLED
  ∧ final (NAppsAPI.enable a (final (NAppsAPI.enable a demo_store)))
    = final (NAppsAPI.enable a demo_store)
  ∧ final (NAppsAPI.disable a (final (NAppsAPI.disable a demo_store)))
    = final (NAppsAPI.disable a demo_store).
Proof.
  intros a. split; [by vm_compute|]. split; [by vm_compute|].
  destruct (enable_disable_idempotent demo_store ("kytos", "of_lldp") "")
    as ((H1 & _) & (H2 & _) & _).
  split; [exact H1 | exact H2].
Defined.

(** A run of the search verb on the sample store, upper case in the
    pattern, lower case in the names. *)
Lemma search_run_example :
  NAppsAPI.search (Args [] "OF_*") demo_store
  = (Returned tt, demo_store,
     [Call CallSearch; Call CallGetEnabled; Call CallGetInstalled;
      PrintNApps [("[ie]", "kytos/of_core", "OpenFlow core");
                  ("[--]", "kytos/of_stats", "Statistics")]]).
Proof. by vm_compute. Qed.

(** ** The search pattern *)

Section Pattern.
Implicit Types (c d : ascii) (s pat text : string).

Lemma app_cons c s1 s2 : String c s1 +:+ s2 = String c (s1 +:+ s2).
Proof. done. Qed.

Lemma app_empty_r s : s +:+ "" = s.
Proof. induction s as [|c s IH]; [done|]. by rewrite app_cons, IH. Qed.

Lemma app_assoc_str s1 s2 s3 : (s1 +:+ s2) +:+ s3 = s1 +:+ s2 +:+ s3.
Proof. induction s1 as [|c s1 IH]; [done|]. by rewrite !app_cons, IH. Qed.

Lemma all_chars_app f s1 s2 :
  all_chars f (s1 +:+ s2) = all_chars f s1 && all_chars f s2.
Proof.
  induction s1 as [|c s1 IH]; [done|].
  rewrite app_cons. simpl. by rewrite IH, andb_assoc.
Qed.

Lemma special_not_alnum c : re.special c = true → re.is_alnum c = false.
Proof. by destruct c as [[] [] [] [] [] [] [] []]. Qed.

Lemma not_special_plain c :
  re.special c = false →
  re.meta c = false ∧ c ≠ "\"%char ∧ c ≠ "."%char ∧ c ≠ "*"%char.
Proof. by destruct c as [[] [] [] [] [] [] [] []]. Qed.

Lemma after_star_ok_plain c s :
  re.special c = false → re.after_star_ok (String c s) = true.
Proof. by destruct c as [[] [] [] [] [] [] [] []]. Qed.

Lemma prefix_empty s : String.prefix "" s = true.
Proof. by destruct s. Qed.

Lemma escape_not_star s r : re.escape s ≠ String "*" r.
Proof.
  destruct s as [|c s]; [done|]. simpl.
  destruct (re.special c) eqn:Hc; [done|].
  intros [= -> _]. done.
Qed.

Lemma prefix_backslash_star c s :
  String.prefix "\*" (String c s)
  = Ascii.eqb c "\"
    && match s with String d _ => Ascii.eqb d "*" | EmptyString => false end.
Proof.
  unfold String.prefix.
  destruct (ascii_dec "\"%char c) as [<-|Hc].
  - destruct s as [|d s]; [done|].
    destruct (ascii_dec "*"%char d) as [<-|Hd]; [by destruct s|].
    simpl. symmetry. apply Ascii.eqb_neq. congruence.
  - destruct s; symmetry; simpl; apply andb_false_intro1, Ascii.eqb_neq;
      congruence.
Qed.

Lemma replace_go_cons (old new : string) c s :
  replace_go old new 0 (String c s)
  = if String.prefix old (String c s)
    then new +:+ replace_go old new (String.length old - 1) s
    else String c (replace_go old new 0 s).
Proof. done. Qed.

Lemma replace_escape pat :
  replace "\*" ".*" (re.escape pat) = translate pat.
Proof.
  unfold replace. induction pat as [|c pat IH]; [done|].
  cbn [re.escape translate].
  destruct (Ascii.eqb_spec c "*") as [->|Hstar].
  { change (re.special "*"%char) with true. cbv iota.
    rewrite replace_go_cons, prefix_backslash_star.
    cbn [Ascii.eqb Bool.eqb andb String.length Nat.sub replace_go].
    by rewrite IH. }
  destruct (re.special c) eqn:Hc.
  - rewrite replace_go_cons, prefix_backslash_star.
    rewrite (proj2 (Ascii.eqb_neq c "*"%char) Hstar), andb_false_r.
    f_equal. rewrite replace_go_cons, prefix_backslash_star.
    replace (match re.escape pat with
             | EmptyString => false
             | String d _ => Ascii.eqb d "*"
             end) with false; [by rewrite andb_false_r, IH|].
    destruct (re.escape pat) as [|d r] eqn:Hesc; [done|].
    symmetry. apply Ascii.eqb_neq. intros ->.
    by destruct (escape_not_star pat r).
  - destruct (not_special_plain c Hc) as (_ & Hbs & _).
    rewrite replace_go_cons, prefix_backslash_star.
    by rewrite (proj2 (Ascii.eqb_neq c "\"%char) Hbs), IH.
Qed.

Lemma parse_translate pat rest (its : list re.item) :
  re.parse_go false false rest = Some its →
  re.after_star_ok rest = true →
  re.parse_go false false (translate pat +:+ rest)
  = Some (glob_items pat ++ its)
  ∧ re.after_star_ok (translate pat +:+ rest) = true.
Proof.
  intros Hrest Hok. induction pat as [|c pat [IH1 IH2]]; [done|].
  simpl. destruct (Ascii.eqb_spec c "*") as [->|Hstar].
  { rewrite !app_cons. simpl. by rewrite IH1, IH2. }
  destruct (re.special c) eqn:Hc.
  - rewrite !app_cons. split; [|done]. simpl.
    rewrite (special_not_alnum c Hc), IH1. done.
  - destruct (not_special_plain c Hc) as (Hm & Hbs & Hdot & _).
    rewrite app_cons. split; [|by apply after_star_ok_plain].
    simpl. rewrite Hm, IH1.
    destruct (Ascii.eqb_spec c "\"); [done|].
    by destruct (Ascii.eqb_spec c ".").
Qed.

(** The pattern [search] compiles, item by item. *)
Lemma compile_pat_str pat :
  re.compile_ignorecase (NAppsAPI.pat_str pat)
  = Some (re.Pattern (re.AnyStar :: glob_items pat ++ [re.AnyStar]) true).
Proof.
  unfold re.compile_ignorecase, re.parse, NAppsAPI.pat_str.
  rewrite replace_escape.
  destruct (parse_translate pat ".*" [re.AnyStar]) as [H1 H2]; [done..|].
  rewrite !app_cons. simpl. change ("" +:+ ?x) with x. by rewrite H1, H2.
Qed.

(** *** What the compiled pattern matches *)

Lemma match_star_unfold ic (its : list re.item) s :
  re.match_items ic (re.AnyStar :: its) s
  = re.match_items ic its s
    || match s with
       | String d s' =>
           not_newline d && re.match_items ic (re.AnyStar :: its) s'
       | EmptyString => false
       end.
Proof. by destruct s. Qed.

Lemma match_star ic (its : list re.item) s :
  re.match_items ic (re.AnyStar :: its) s = true
  ↔ ∃ w r, s = w +:+ r ∧ all_chars not_newline w = true
           ∧ re.match_items ic its r = true.
Proof.
  split.
  - induction s as [|d s IH]; rewrite match_star_unfold.
    + rewrite orb_false_r. intros H. by exists "", "".
    + intros [H|[Hd H]%andb_true_iff]%orb_true_iff.
      * by exists "", (String d s).
      * destruct (IH H) as (w & r & -> & Hw & Hr).
        exists (String d w), r. split; [done|]. split; [|done].
        simpl. by rewrite Hd.
  - intros (w & r & -> & Hw & Hr). induction w as [|d w IH].
    + change ("" +:+ r) with r. rewrite match_star_unfold, Hr. done.
    + simpl in Hw. apply andb_true_iff in Hw as [Hd Hw].
      rewrite app_cons, match_star_unfold, Hd, (IH Hw).
      apply orb_true_r.
Qed.

Lemma match_glob_items pat (its : list re.item) s :
  re.match_items true (glob_items pat ++ its) s = true
  ↔ ∃ mid r, s = mid +:+ r ∧ glob not_newline pat mid
             ∧ re.match_items true its r = true.
Proof.
  revert s. induction pat as [|c pat IH]; intros s.
  { split.
    - intros H. exists "", s. split; [done|]. split; [constructor|done].
    - intros (mid & r & -> & Hg & Hr). by inversion Hg. }
  cbn [glob_items]. destruct (Ascii.eqb_spec c "*") as [->|Hstar].
  - rewrite <- app_comm_cons, match_star. split.
    + intros (w & r & -> & Hw & (mid & r' & -> & Hg & Hr)%IH).
      exists (w +:+ mid), r'. rewrite app_assoc_str.
      split; [done|]. split; [by constructor|done].
    + intros (mid & r & -> & Hg & Hr). inversion Hg as [|p w t Hw Hg'|]; subst.
      * exists w, (t +:+ r). rewrite app_assoc_str. split; [done|].
        split; [done|]. apply IH. eauto.
      * done.
  - rewrite <- app_comm_cons. split.
    + destruct s as [|d s]; [done|]. simpl.
      intros [Hcd (mid & r & -> & Hg & Hr)%IH]%andb_true_iff.
      exists (String d mid), r. split; [done|]. split; [|done].
      constructor; [done| |done]. by apply Ascii.eqb_eq.
    + intros (mid & r & -> & Hg & Hr).
      inversion Hg as [| |c' d p t _ Hcd Hg']; subst; [done|].
      rewrite app_cons. simpl. apply andb_true_iff. split.
      * unfold re.char_eq. by apply Ascii.eqb_eq.
      * apply IH. eauto.
Qed.

(** The pattern of [search], for every text: some stretch of the text
    matches the user's pattern, with [*] standing for characters other
    than the newline, and no newline comes before that stretch. *)
Lemma search_matches_spec pat text :
  search_matches pat text = true
  ↔ ∃ pre mid post, text = pre +:+ mid +:+ post
      ∧ all_chars not_newline pre = true ∧ glob not_newline pat mid.
Proof.
  unfold search_matches. rewrite compile_pat_str. unfold re.match_. simpl.
  change (re.match_items true (re.AnyStar :: glob_items pat ++ [re.AnyStar])
            text = true ↔
          ∃ pre mid post, text = pre +:+ mid +:+ post
            ∧ all_chars not_newline pre = true ∧ glob not_newline pat mid).
  rewrite match_star. split.
  - intros (w & r & -> & Hw & (mid & r' & -> & Hg & _)%match_glob_items).
    eauto 10.
  - intros (pre & mid & post & -> & Hpre & Hg).
    exists pre, (mid +:+ post). split; [done|]. split; [done|].
    apply match_glob_items. exists mid, post. split; [done|].
    split; [done|]. by destruct post.
Qed.

Lemma glob_single_line pat mid :
  single_line mid = true → glob (λ _, true) pat mid →
  glob not_newline pat mid.
Proof.
  intros Hmid Hg. induction Hg as [|p w t Hw Hg IH|c d p t Hc Hcd Hg IH].
  - constructor.
  - unfold single_line in Hmid. rewrite all_chars_app in Hmid.
    apply andb_true_iff in Hmid as [??]. constructor; auto.
  - simpl in Hmid. apply andb_true_iff in Hmid as [??]. constructor; auto.
Qed.

Lemma glob_any ok pat mid : glob ok pat mid → glob (λ _, true) pat mid.
Proof.
  induction 1 as [|p w t Hw Hg IH|]; constructor; try done.
  clear. by induction w.
Qed.

(** C7 (amended). [search] compiles the user's pattern into: any run,
    then one item for each character of the pattern, [.*] for a [*] and
    the character itself, letter case apart, for any other, then any run.
    On a text without newline the compiled pattern matches exactly when
    some substring of the text matches the shell-style pattern, letter
    case apart; in particular "Foo*" matches "foobar", alone or after an
    author on the same line. *)
Theorem search_pattern_is_glob_substring pat :
  re.compile_ignorecase (NAppsAPI.pat_str pat)
  = Some (re.Pattern (re.AnyStar :: glob_items pat ++ [re.AnyStar]) true)
  ∧ (∀ text, single_line text = true →
       (search_matches pat text = true ↔ glob_substring pat text))
  ∧ (∀ pre post, single_line pre = true →
       search_matches "Foo*" (pre +:+ "foobar" +:+ post) = true).
Proof.
  split; [apply compile_pat_str|]. split.
  - intros text Hline. rewrite search_matches_spec. unfold glob_substring.
    unfold single_line in Hline. split.
    + intros (pre & mid & post & -> & Hpre & Hg).
      exists pre, mid, post. split; [done|]. by eapply glob_any.
    + intros (pre & mid & post & -> & Hg).
      rewrite !all_chars_app in Hline.
      apply andb_true_iff in Hline as [Hpre [Hmid _]%andb_true_iff].
      exists pre, mid, post. split; [done|]. split; [done|].
      by apply glob_single_line.
  - intros pre post Hpre. apply search_matches_spec.
    exists pre, "foobar", post. split; [done|]. split; [done|].
    do 3 (apply glob_char; [done..|]).
    apply (glob_star _ "" "bar" ""); [done|constructor].
Qed.

Lemma search_pattern_compiles pat :
  ∃ p, re.compile_ignorecase (NAppsAPI.pat_str pat) = Some p.
Proof. eexists. apply compile_pat_str. Qed.

End Pattern.

(** ** Sorting *)

Global Instance tuple3_le_total : Total tuple3_le.
Proof.
  intros [[a1 b1] c1] [[a2 b2] c2]. unfold tuple3_le.
  repeat case_decide; try congruence; apply (total String.le).
Qed.

Global Instance tuple3_le_trans : Transitive tuple3_le.
Proof.
  intros [[a1 b1] c1] [[a2 b2] c2] [[a3 b3] c3]. unfold tuple3_le.
  assert (Hanti : ∀ x y z : string,
            String.le x y → String.le y z → x = z → x = y).
  { intros x y z Hxy Hyz <-. by apply (anti_symm String.le). }
  repeat case_decide; subst; intros H12 H23; try done;
    try (by etrans);
    try (by destruct (Hanti _ _ _ H12 H23)); eauto.
Qed.

Lemma tuple3_le_napp_le (x y : string * string * string) :
  tuple3_le x y → napp_le x.1 y.1.
Proof.
  destruct x as [[a1 b1] c1], y as [[a2 b2] c2]. unfold tuple3_le, napp_le.
  simpl. repeat case_decide; subst; done.
Qed.

Global Instance tuple3_le_antisymm : AntiSymm (=) tuple3_le.
Proof.
  intros [[a1 b1] c1] [[a2 b2] c2]. unfold tuple3_le.
  repeat case_decide; subst; intros H12 H21; try done;
    pose proof (anti_symm String.le _ _ H12 H21); by subst.
Qed.

Lemma sorted_Permutation (xs : list (string * string * string)) :
  sorted xs ≡ₚ xs.
Proof. apply merge_sort_Permutation. Qed.

Lemma sorted_StronglySorted (xs : list (string * string * string)) :
  StronglySorted napp_le (fst <$> sorted xs).
Proof.
  apply (StronglySorted_fmap _ tuple3_le); [apply tuple3_le_napp_le|].
  apply StronglySorted_merge_sort; apply _.
Qed.

(** Any arrangement of [xs] in non-decreasing order is [sorted xs]: the
    result does not depend on the sorting algorithm. *)
Lemma sorted_unique (xs ys : list (string * string * string)) :
  Sorted tuple3_le ys → ys ≡ₚ xs → ys = sorted xs.
Proof.
  intros Hs Hp. apply (Sorted_unique tuple3_le); [done| |].
  - apply Sorted_merge_sort, _.
  - by rewrite sorted_Permutation.
Qed.

(** ** The rows of search and list *)

Lemma status_flags (installed enabled : list napp) (n : napp) (nm d : string) :
  let r : row := (NAppsAPI.status installed enabled n, nm, d) in
  (installed_flag r = true ↔ n ∈ installed)
  ∧ (enabled_flag r = true ↔ n ∈ enabled).
Proof.
  unfold installed_flag, enabled_flag, NAppsAPI.status. simpl.
  destruct (bool_decide_reflect (n ∈ installed)),
    (bool_decide_reflect (n ∈ enabled)); split; split; done.
Qed.

(** C8. The rows [search] builds are those of the registry's listings,
    rearranged in the lexicographic order of [(author, name)]; the row of a
    listing has the name [author/name] and the listing's description, shows
    the installed flag exactly when the identity is in the installed set,
    and the enabled flag exactly when it is in the enabled set. *)
Theorem search_rows_flags_and_order
    (remote_json : list listing) (installed enabled : list napp) :
  ∃ ls : list listing,
    ls ≡ₚ remote_json
    ∧ StronglySorted napp_le ((λ l, (author l, name l)) <$> ls)
    ∧ Forall2
        (λ (l : listing) (r : row),
           r.1.2 = napp_name (author l, name l)
           ∧ r.2 = description l
           ∧ (installed_flag r = true ↔ (author l, name l) ∈ installed)
           ∧ (enabled_flag r = true ↔ (author l, name l) ∈ enabled))
        ls (NAppsAPI.search_rows remote_json installed enabled).
Proof.
  unfold NAppsAPI.search_rows.
  change (λ n : listing, (author n, name n, description n)) with listing_key.
  exists (key_listing <$> sorted (listing_key <$> remote_json)).
  split_and!.
  - rewrite sorted_Permutation, <- list_fmap_compose.
    rewrite (list_fmap_ext _ id); [by rewrite list_fmap_id|].
    by intros i [] _.
  - rewrite <- list_fmap_compose.
    rewrite (list_fmap_ext _ fst); [apply sorted_StronglySorted|].
    by intros i [[??]?] _.
  - apply Forall2_fmap. apply Forall_Forall2_diag, Forall_forall.
    intros [[a nm] d] _. simpl. split; [done|]. split; [done|].
    apply status_flags.
Qed.

Section Listing.
Context {M : Type} {mgr : NAppsManager.t M}.

(** The search verb prints [search_rows] of the registry's answer and of
    the manager's two local sets, and calls no method that changes the
    manager. *)
Lemma search_prints_search_rows (a : args) (m : M) (remote_json : list listing) :
  (∀ p, NAppsManager.search p m = inr remote_json) →
  let rows := NAppsAPI.search_rows remote_json (NAppsManager.get_installed m)
                (NAppsManager.get_enabled m) in
  NAppsAPI.search a m
  = (Returned tt, m,
     [Call CallSearch; Call CallGetEnabled; Call CallGetInstalled;
      PrintNApps rows]).
Proof.
  intros Hs rows. unfold NAppsAPI.search.
  destruct (search_pattern_compiles (arg_pattern a)) as [p ->].
  unfold bind, fetch, query, NAppsAPI.print_napps, ret. by rewrite Hs.
Qed.



End Listing.


(** C7, as stated, fails: [.] does not match the newline, so for the
    pattern "a*b" the compiled pattern does not match the text made of
    "a", a newline and "b", though [*] standing for the newline makes the
    whole text match. *)
Lemma star_does_not_match_newline :
  let text := String "a" (String re.newline "b") in
  glob_substring "a*b" text ∧ search_matches "a*b" text = false.
Proof.
  intros text. split; [|by vm_compute].
  exists "", text, "". split; [done|].
  apply glob_char; [done..|].
  apply (glob_star _ "b" (String re.newline "") "b"); [done|].
  apply glob_char; [done..|]. constructor.
Qed.

Lemma search_pattern_is_glob_substring_witness :
  single_line "of_Foobar" = true
  ∧ search_matches "Foo*" "of_Foobar" = true
  ∧ glob_substring "Foo*" "of_Foobar".
Proof.
  split; [reflexivity|]. split; [by vm_compute|].
  destruct (search_pattern_is_glob_substring "Foo*") as (_ & H & _).
  apply (H "of_Foobar"); by vm_compute.
Defined.



(** * Further properties of the verbs *)

Section MoreVerbs.
Context {M : Type} {mgr : NAppsManager.t M}.

(** The loop of [uninstall], one identity at a time. *)
Lemma uninstall_cons (n : napp) (ns : list napp) (p : string) (m : M) :
  NAppsAPI.uninstall (Args (n :: ns) p) m
  = let m0 := NAppsManager.set_napp n.1 n.2 m in
    let hd := [Call (CallSetNapp n.1 n.2);
               Log INFO ("NApp " +:+ NAppsManager.napp_id m0 +:+ ":");
               Call CallIsInstalled] in
    let rm := [Log INFO "  Uninstalling..."; Call CallUninstall] in
    if NAppsManager.is_installed m0
    then match NAppsManager.uninstall m0 with
         | inl e => (Raised e, m0, hd ++ rm)
         | inr m1 =>
             match NAppsAPI.disable_napp m1 with
             | (Returned _, m2, t1) =>
                 let '(r, m3, t2) := NAppsAPI.uninstall (Args ns p) m2 in
                 (r, m3, hd ++ rm ++ t1 ++ Log INFO "  Uninstalled." :: t2)
             | (Raised e, m2, t1) => (Raised e, m2, hd ++ rm ++ t1)
             end
         end
    else let '(r, m3, t2) := NAppsAPI.uninstall (Args ns p) m0 in
         (r, m3, hd ++ Log INFO "  Uninstalled." :: t2).
Proof.
  unfold NAppsAPI.uninstall. simpl.
  unfold NAppsAPI.select, bind, update, attr, log, query, invoke, ret.
  simpl. destruct (NAppsManager.is_installed _); simpl.
  - destruct (NAppsManager.uninstall _) as [e|m1]; simpl; [done|].
    destruct (NAppsAPI.disable_napp m1) as [[[[]|e] m2] t1]; simpl; [|done].
    destruct (for_each _ _ _) as [[??]?]. simpl.
    by rewrite <- !app_assoc.
  - by destruct (for_each _ _ _) as [[??]?].
Qed.

(** The loop of [disable], one identity at a time. *)
Lemma disable_cons (n : napp) (ns : list napp) (p : string) (m : M) :
  NAppsAPI.disable (Args (n :: ns) p) m
  = let m0 := NAppsManager.set_napp n.1 n.2 m in
    let hd := [Call (CallSetNapp n.1 n.2);
               Log INFO ("NApp " +:+ NAppsManager.napp_id m0 +:+ ":")] in
    match NAppsAPI.disable_napp m0 with
    | (Returned _, m1, t1) =>
        let '(r, m2, t2) := NAppsAPI.disable (Args ns p) m1 in
        (r, m2, hd ++ t1 ++ t2)
    | (Raised e, m1, t1) => (Raised e, m1, hd ++ t1)
    end.
Proof.
  unfold NAppsAPI.disable. simpl.
  unfold NAppsAPI.select, bind at 1 2 3, update, attr, log. simpl.
  destruct (NAppsAPI.disable_napp _) as [[[[]|e] m1] t1]; simpl; [|done].
  by destruct (for_each _ _ _) as [[??]?].
Qed.

(** The loop of [enable], one identity at a time. *)
Lemma enable_cons (n : napp) (ns : list napp) (p : string) (m : M) :
  NAppsAPI.enable (Args (n :: ns) p) m
  = let m0 := NAppsManager.set_napp n.1 n.2 m in
    let hd := [Call (CallSetNapp n.1 n.2);
               Log INFO ("NApp " +:+ NAppsManager.napp_id m0 +:+ ":")] in
    match NAppsAPI.enable_napp m0 with
    | (Returned _, m1, t1) =>
        let '(r, m2, t2) := NAppsAPI.enable (Args ns p) m1 in
        (r, m2, hd ++ t1 ++ t2)
    | (Raised e, m1, t1) => (Raised e, m1, hd ++ t1)
    end.
Proof.
  unfold NAppsAPI.enable. simpl.
  unfold NAppsAPI.select, bind at 1 2 3, update, attr, log. simpl.
  destruct (NAppsAPI.enable_napp _) as [[[[]|e] m1] t1]; simpl; [|done].
  by destruct (for_each _ _ _) as [[??]?].
Qed.

(** X1. On an identity that the manager reports as not installed, the
    uninstall verb calls neither [mgr.uninstall()] nor [disable_napp]: it
    does not even ask whether the NApp is enabled, logs "Uninstalled." and
    goes on with the rest of the batch.  A NApp that is enabled without
    being installed stays enabled. *)
Theorem uninstall_of_absent_calls_nothing
    (n : napp) (ns : list napp) (p : string) (m : M) :
  let m0 := NAppsManager.set_napp n.1 n.2 m in
  NAppsManager.is_installed m0 = false →
  NAppsAPI.uninstall (Args [n] p) m
  = (Returned tt, m0,
     [Call (CallSetNapp n.1 n.2);
      Log INFO ("NApp " +:+ NAppsManager.napp_id m0 +:+ ":");
      Call CallIsInstalled; Log INFO "  Uninstalled."])
  ∧ NAppsAPI.uninstall (Args (n :: ns) p) m
    = let '(r, m2, t2) := NAppsAPI.uninstall (Args ns p) m0 in
      (r, m2,
       [Call (CallSetNapp n.1 n.2);
        Log INFO ("NApp " +:+ NAppsManager.napp_id m0 +:+ ":");
        Call CallIsInstalled; Log INFO "  Uninstalled."] ++ t2).
Proof.
  intros m0 Hin. subst m0. rewrite !uninstall_cons. cbv zeta. rewrite Hin.
  split; [done|]. by destruct (NAppsAPI.uninstall _ _) as [[??]?].
Qed.

(** X2. The uninstall verb has no handler: when [mgr.uninstall()] raises,
    the exception leaves the verb at once; [disable_napp] is not called,
    "Uninstalled." is not logged and the identities that follow are not
    taken up. *)
Theorem uninstall_failure_leaves_the_verb
    (n : napp) (ns : list napp) (p : string) (m : M) (e : exn) :
  let m0 := NAppsManager.set_napp n.1 n.2 m in
  NAppsManager.is_installed m0 = true →
  NAppsManager.uninstall m0 = inl e →
  NAppsAPI.uninstall (Args (n :: ns) p) m
  = (Raised e, m0,
     [Call (CallSetNapp n.1 n.2);
      Log INFO ("NApp " +:+ NAppsManager.napp_id m0 +:+ ":");
      Call CallIsInstalled; Log INFO "  Uninstalling..."; Call CallUninstall]).
Proof.
  intros m0 Hin Hun. subst m0. rewrite uninstall_cons. cbv zeta.
  by rewrite Hin, Hun.
Qed.

(** X3. [disable_napp] has no handler either.  When [mgr.disable()]
    raises, the disable verb raises and the identities that follow are not
    taken up; in the uninstall verb the exception comes after the code has
    been removed, so the verb raises with the NApp as [mgr.uninstall()]
    left it, still enabled, and "Uninstalled." is not logged. *)
Theorem disable_failure_leaves_the_verb
    (n : napp) (ns : list napp) (p : string) (m : M) (e : exn) :
  let m0 := NAppsManager.set_napp n.1 n.2 m in
  (NAppsManager.is_enabled m0 = true →
   NAppsManager.disable m0 = inl e →
   NAppsAPI.disable (Args (n :: ns) p) m
   = (Raised e, m0,
      [Call (CallSetNapp n.1 n.2);
       Log INFO ("NApp " +:+ NAppsManager.napp_id m0 +:+ ":");
       Call CallIsEnabled; Log INFO "  Disabling..."; Call CallDisable]))
  ∧ (∀ m1, NAppsManager.is_installed m0 = true →
       NAppsManager.uninstall m0 = inr m1 →
       NAppsManager.is_enabled m1 = true →
       NAppsManager.disable m1 = inl e →
       NAppsAPI.uninstall (Args (n :: ns) p) m
       = (Raised e, m1,
          [Call (CallSetNapp n.1 n.2);
           Log INFO ("NApp " +:+ NAppsManager.napp_id m0 +:+ ":");
           Call CallIsInstalled; Log INFO "  Uninstalling...";
           Call CallUninstall; Call CallIsEnabled; Log INFO "  Disabling...";
           Call CallDisable])).
Proof.
  intros m0. subst m0. split.
  - intros Hen Hdis. rewrite disable_cons. cbv zeta.
    by rewrite (disable_napp_raises _ e Hen Hdis).
  - intros m1 Hin Hun Hen Hdis. rewrite uninstall_cons. cbv zeta.
    rewrite Hin, Hun. by rewrite (disable_napp_raises _ e Hen Hdis).
Qed.

(** X4. The handler for [HTTPError] in [install_napp] also covers the call
    of [enable_napp] that follows a remote installation.  An [HTTPError]
    raised by [mgr.enable()] after a remote installation is therefore
    logged as a failure of the registry ("NApp not found." for code 404)
    although "Installed." has been logged, and [install_napp] returns
    normally; after a local installation the same exception leaves
    [install_napp]. *)
Theorem http_error_of_enable_depends_on_path
    (m m1 : M) (code : Z) (msg : string) :
  NAppsManager.is_enabled m1 = false →
  NAppsManager.enable m1 = inl (HTTPError code msg) →
  (NAppsManager.install_local m = inr m1 →
   NAppsAPI.install_napp m
   = (Raised (HTTPError code msg), m1,
      [Log INFO "  Searching local NApp..."; Call CallInstallLocal;
       Log INFO "  Installed."; Call CallIsEnabled; Log INFO "  Enabling...";
       Call CallEnable]))
  ∧ (∀ msg0, NAppsManager.install_local m = inl (FileNotFoundError msg0) →
       NAppsManager.install_remote m = inr m1 →
       NAppsAPI.install_napp m
       = (Returned tt, m1,
          [Log INFO "  Searching local NApp..."; Call CallInstallLocal;
           Log INFO "  Downloading from NApps Server...";
           Call CallInstallRemote; Log INFO "  Installed.";
           Call CallIsEnabled; Log INFO "  Enabling..."; Call CallEnable;
           Log ERROR (if decide (code = 404) then "  NApp not found."
                      else "  NApps Server error: HTTP Error "
                           +:+ pretty code +:+ ": " +:+ msg)])).
Proof.
  intros Hen Hcall.
  pose proof (enable_napp_raises m1 _ Hen Hcall eq_refl) as Hrun. split.
  - intros Hloc. rewrite (install_napp_local m m1 Hloc). by rewrite Hrun.
  - intros msg0 Hloc Hrem. rewrite (install_napp_remote m m1 msg0 Hloc Hrem).
    rewrite Hrun. by case_decide.
Qed.

(** X5. Only [HTTPError] is handled around the remote installation.  Any
    other exception of [mgr.install_remote()], a [FileNotFoundError]
    included, leaves the install verb: it is not logged and the identities
    that follow are not taken up. *)
Theorem remote_failure_other_than_http_leaves_the_verb
    (n : napp) (ns : list napp) (p : string) (m : M) (msg : string) (e : exn) :
  let m0 := NAppsManager.set_napp n.1 n.2 m in
  NAppsManager.is_installed m0 = false →
  NAppsManager.install_local m0 = inl (FileNotFoundError msg) →
  NAppsManager.install_remote m0 = inl e →
  is_HTTPError e = false →
  NAppsAPI.install (Args (n :: ns) p) m
  = (Raised e, m0,
     [Call (CallSetNapp n.1 n.2);
      Log INFO ("NApp " +:+ NAppsManager.napp_id m0 +:+ ":");
      Call CallIsInstalled; Log INFO "  Searching local NApp...";
      Call CallInstallLocal; Log INFO "  Downloading from NApps Server...";
      Call CallInstallRemote]).
Proof.
  intros m0 Hin Hloc Hrem He. subst m0. rewrite install_cons. cbv zeta.
  rewrite Hin. by rewrite (install_napp_remote_raises _ msg e Hloc Hrem He).
Qed.

(** X6. Whatever the manager does, the enable verb never raises a
    [FileNotFoundError] or a [PermissionError]: an exception that leaves it
    is of another class. *)
Theorem enable_never_raises_handled_classes (a : args) (m : M) (e : exn) :
  outcome (NAppsAPI.enable a m) = Raised e →
  is_FileNotFoundError e = false ∧ is_PermissionError e = false.
Proof.
  destruct a as [ns p]. revert m. induction ns as [|n ns IH]; intros m.
  { done. }
  rewrite enable_cons. cbv zeta.
  destruct (enable_napp_cases (NAppsManager.set_napp n.1 n.2 m))
    as (r & m1 & t & -> & _ & Hr).
  destruct r as [[]|e1].
  - specialize (IH m1). destruct (NAppsAPI.enable _ m1) as [[r2 m2] t2].
    unfold outcome in *. simpl in *. done.
  - unfold outcome. simpl. intros [= <-].
    by apply orb_false_iff, Hr.
Qed.

End MoreVerbs.

(** * Further properties of search and list *)

Section MoreListing.
Context {M : Type} {mgr : NAppsManager.t M}.


(** The comprehension of [list] stops at the first description that
    cannot be read. *)
Lemma map_m_descriptions_failure
    (ts : list (string * string * string)) (m : M) :
  (∃ t, t ∈ ts ∧ ∃ e, NAppsManager.get_description t.1.1 t.1.2 m = inl e) →
  ∃ t e tr,
    t ∈ ts
    ∧ NAppsManager.get_description t.1.1 t.1.2 m = inl e
    ∧ map_m (λ '(u, n, s),
             d <- fetch (CallGetDescription u n)
                        (NAppsManager.get_description u n) ;;
             ret (s, napp_name (u, n), d)) ts m
      = (Raised e, m, tr)
    ∧ ∀ rows, PrintNApps rows ∉ tr.
Proof.
  induction ts as [|[[u n] s] ts IH]; intros (t & Ht & e & He).
  { by apply elem_of_nil in Ht. }
  cbn [map_m]. cbv beta iota. unfold bind at 1. unfold bind at 1.
  unfold fetch at 1.
  destruct (NAppsManager.get_description u n m) as [e1|d] eqn:Hd.
  - exists (u, n, s), e1, [Call (CallGetDescription u n)].
    split; [apply list_elem_of_here|]. split; [done|]. split; [done|].
    intros rows. by rewrite list_elem_of_singleton.
  - apply elem_of_cons in Ht as [->|Ht].
    { simpl in He. rewrite Hd in He. done. }
    destruct IH as (t' & e' & tr & Ht' & He' & Hrun & Hno); [by eauto|].
    exists t', e', ([Call (CallGetDescription u n)] ++ [] ++ tr).
    split; [by apply list_elem_of_further|]. split; [done|]. split.
    + cbv beta iota. unfold ret at 1. cbv beta iota. unfold bind at 1.
      by rewrite Hrun.
    + intros rows. simpl. rewrite elem_of_cons. intros [|?%Hno]; done.
Qed.

(** X8. When the description of one of the NApps to list cannot be read,
    the list verb raises the exception of [get_description] and prints
    nothing, not even the rows whose descriptions were read; the manager
    is unchanged. *)
Theorem list_prints_nothing_when_a_description_fails (a : args) (m : M) :
  (∃ n, n ∈ NAppsManager.get_enabled m ++ NAppsManager.get_disabled m
        ∧ ∃ e, NAppsManager.get_description n.1 n.2 m = inl e) →
  ∃ n e tr,
    n ∈ NAppsManager.get_enabled m ++ NAppsManager.get_disabled m
    ∧ NAppsManager.get_description n.1 n.2 m = inl e
    ∧ NAppsAPI.list_ a m = (Raised e, m, tr)
    ∧ ∀ rows, PrintNApps rows ∉ tr.
Proof.
  intros (n & Hn & e & He).
  set (xs := (NAppsAPI.with_status "[ie]" <$> NAppsManager.get_enabled m)
             ++ (NAppsAPI.with_status "[i-]" <$> NAppsManager.get_disabled m)).
  assert (Hxs : ∀ t, t ∈ sorted xs →
            t.1 ∈ NAppsManager.get_enabled m ++ NAppsManager.get_disabled m).
  { intros t. rewrite sorted_Permutation. unfold xs.
    rewrite !elem_of_app, !list_elem_of_fmap.
    intros [([u k] & -> & Hin)|([u k] & -> & Hin)]; simpl; auto. }
  destruct (map_m_descriptions_failure (sorted xs) m)
    as (t & e' & tr & Ht & He' & Hrun & Hno).
  { apply elem_of_app in Hn as [Hn|Hn].
    - exists (NAppsAPI.with_status "[ie]" n). split; [|by eauto].
      rewrite sorted_Permutation. apply elem_of_app. left.
      by apply list_elem_of_fmap_2.
    - exists (NAppsAPI.with_status "[i-]" n). split; [|by eauto].
      rewrite sorted_Permutation. apply elem_of_app. right.
      by apply list_elem_of_fmap_2. }
  exists t.1, e', ([Call CallGetEnabled] ++ [Call CallGetDisabled] ++ tr).
  split; [by apply Hxs|]. split; [by destruct t as [[??]?]|]. split.
  - unfold NAppsAPI.list_, bind at 1. unfold query at 1.
    unfold bind at 1. unfold query at 1. fold xs.
    unfold bind at 1. by rewrite Hrun.
  - intros rows. simpl. rewrite !elem_of_cons. intros [|[|?%Hno]]; done.
Qed.

End MoreListing.

(** * Further properties of the search pattern *)

Lemma glob_snoc_star (ok : ascii → bool) (pat mid : string) :
  glob ok (pat +:+ "*") mid
  ↔ ∃ t w, mid = t +:+ w ∧ glob ok pat t ∧ all_chars ok w = true.
Proof.
  revert mid. induction pat as [|c pat IH]; intros mid.
  - change ("" +:+ "*") with "*". split.
    + intros Hg. inversion Hg as [|p w t Hw Hg'|]; subst; [|done].
      inversion Hg'; subst. exists "", w.
      rewrite app_empty_r. split; [done|]. split; [constructor|done].
    + intros (t & w & -> & Hg & Hw). inversion Hg; subst.
      change ("" +:+ w) with w. rewrite <- (app_empty_r w).
      constructor; [done|constructor].
  - rewrite app_cons. split.
    + intros Hg. inversion Hg as [|p w t Hw Hg'|c' d p t Hc Hcd Hg']; subst.
      * apply IH in Hg' as (t' & w' & -> & Hg' & Hw').
        exists (w +:+ t'), w'. rewrite app_assoc_str.
        split; [done|]. split; [by constructor|done].
      * apply IH in Hg' as (t' & w' & -> & Hg' & Hw').
        exists (String d t'), w'. split; [done|]. split; [by constructor|done].
    + intros (t & w & -> & Hg & Hw).
      inversion Hg as [|p w0 t0 Hw0 Hg'|c' d p t0 Hc Hcd Hg']; subst.
      * rewrite app_assoc_str. constructor; [done|]. apply IH. eauto.
      * rewrite app_cons. constructor; [done..|]. apply IH. eauto.
Qed.

(** X9. A [*] at the beginning or at the end of the user's pattern changes
    nothing: the pattern [search] compiles matches the same texts with or
    without it.  The empty pattern and the pattern [*] match every
    text. *)
Theorem star_at_either_end_is_redundant (pat text : string) :
  search_matches ("*" +:+ pat) text = search_matches pat text
  ∧ search_matches (pat +:+ "*") text = search_matches pat text
  ∧ search_matches "" text = true
  ∧ search_matches "*" text = true.
Proof.
  assert (Hempty : ∀ t, search_matches "" t = true).
  { intros t. apply search_matches_spec. exists "", "", t.
    split; [done|]. split; [done|constructor]. }
  assert (Hleft : ∀ p t, search_matches ("*" +:+ p) t = search_matches p t).
  { intros p t. apply eq_true_iff_eq. rewrite !search_matches_spec. split.
    - intros (pre & mid & post & -> & Hpre & Hg).
      change ("*" +:+ p) with (String "*" p) in Hg.
      inversion Hg as [|p' w t' Hw Hg'|]; subst; [|done].
      exists (pre +:+ w), t', post. rewrite !app_assoc_str.
      split; [done|]. split; [|done]. by rewrite all_chars_app, Hpre, Hw.
    - intros (pre & mid & post & -> & Hpre & Hg).
      exists pre, mid, post. split; [done|]. split; [done|].
      change ("*" +:+ p) with (String "*" p). change mid with ("" +:+ mid).
      by constructor. }
  assert (Hright : ∀ p t, search_matches (p +:+ "*") t = search_matches p t).
  { intros p t. apply eq_true_iff_eq. rewrite !search_matches_spec. split.
    - intros (pre & mid & post & -> & Hpre & (t' & w & -> & Hg & _)%glob_snoc_star).
      exists pre, t', (w +:+ post). rewrite !app_assoc_str. done.
    - intros (pre & mid & post & -> & Hpre & Hg).
      exists pre, mid, post. split; [done|]. split; [done|].
      apply glob_snoc_star. exists mid, "". by rewrite app_empty_r. }
  split_and!; [apply Hleft | apply Hright | apply Hempty |].
  change "*" with ("*" +:+ ""). by rewrite Hleft.
Qed.

(** * The table of [print_napps] *)

Section TableProperties.
Implicit Types (s : string) (r : row) (napps : list row).

Lemma length_app s1 s2 :
  String.length (s1 +:+ s2) = (String.length s1 + String.length s2)%nat.
Proof. induction s1 as [|c s1 IH]; [done|]. rewrite app_cons. simpl. lia. Qed.

Lemma length_repeat_char (c : ascii) (n : nat) :
  String.length (Table.repeat_char c n) = n.
Proof. induction n as [|n IH]; simpl; lia. Qed.

Lemma half_le (p : nat) : (p `div` 2 ≤ p)%nat.
Proof. apply Nat.Div0.div_le_upper_bound. lia. Qed.

Lemma length_substring_0 (k : nat) s :
  (k ≤ String.length s)%nat → String.length (String.substring 0 k s) = k.
Proof.
  revert s. induction k as [|k IH]; intros s Hk.
  { by destruct s. }
  destruct s as [|c s]; simpl in *; [lia|]. rewrite IH; lia.
Qed.

Lemma max_len_ge (f : row → string) r napps :
  r ∈ napps → Z.of_nat (String.length (f r)) ≤ Table.max_len f napps.
Proof.
  intros Hr. unfold Table.max_len. apply inj_le, max_list_elem_of_le.
  by apply (list_elem_of_fmap_2 (λ n, String.length (f n))).
Qed.

Lemma max_len_nonneg (f : row → string) napps : 0 ≤ Table.max_len f napps.
Proof. unfold Table.max_len. lia. Qed.

(** A field whose width is not negative is padded, never cut. *)
Lemma format_field_ok (al : Table.align) (w : Z) s :
  0 ≤ w →
  ∃ f, Table.format_field al w s = inr f
       ∧ Z.of_nat (String.length f) = Z.max w (Z.of_nat (String.length s)).
Proof.
  intros Hw. unfold Table.format_field.
  destruct (Z.ltb_spec w 0) as [?|_]; [lia|].
  destruct al; eexists; (split; [done|]);
    rewrite ?length_app, ?length_repeat_char.
  - lia.
  - pose proof (half_le (Z.to_nat w - String.length s)). lia.
Qed.

Lemma format_field_negative (al : Table.align) (w : Z) s :
  w < 0 →
  Table.format_field al w s
  = inl (OtherError "ValueError"
                    "Sign not allowed in string format specifier").
Proof.
  intros Hw. unfold Table.format_field.
  by destruct (Z.ltb_spec w 0) as [_|?]; [|lia].
Qed.

Lemma print_rows_ok (w2 w3 : Z) napps :
  0 ≤ w2 → 0 ≤ w3 →
  Table.print_rows 6 w2 w3 napps
  = (Returned tt, Table.row_line w2 w3 <$> napps).
Proof.
  intros Hw2 Hw3. induction napps as [|[[st nm] d] napps IH]; [done|].
  cbn [Table.print_rows]. rewrite IH. unfold Table.format3, Table.format_field.
  destruct (Z.ltb_spec w2 0) as [?|_]; [lia|].
  destruct (Z.ltb_spec w3 0) as [?|_]; [lia|]. done.
Qed.

Lemma desc_w_negative (columns : Z) napps :
  Table.desc_w columns napps < 0 ↔ columns < Table.name_w napps + 12.
Proof.
  unfold Table.desc_w. cbv zeta.
  pose proof (max_len_nonneg (λ n, n.2) napps). lia.
Qed.

Lemma desc_w_nonneg (columns : Z) napps :
  Table.name_w napps + 12 ≤ columns → 0 ≤ Table.desc_w columns napps.
Proof. pose proof (desc_w_negative columns napps). lia. Qed.

Lemma print_napps_prints (columns : Z) napps :
  let w2 := Table.name_w napps in
  let w3 := Table.desc_w columns napps in
  napps ≠ [] → w2 + 12 ≤ columns →
  ∃ header,
    Table.print_napps columns napps
    = (Returned tt,
       [header; Table.rule 6 w2 w3] ++ (Table.row_line w2 w3 <$> napps)
       ++ [String "010" "Status: (i)nstalled, (e)nabled"
           +:+ String "010" ""]).
Proof.
  intros w2 w3 Hne Hcol. destruct napps as [|r napps]; [done|].
  assert (Hw2 : 0 ≤ w2) by apply max_len_nonneg.
  assert (Hw3 : 0 ≤ w3) by by apply desc_w_nonneg.
  unfold Table.print_napps, Table.format3. fold w2 w3.
  destruct (format_field_ok Table.Center 6 "Status") as (f1 & -> & _); [lia|].
  destruct (format_field_ok Table.Center w2 "NApp ID") as (f2 & -> & _);
    [done|].
  destruct (format_field_ok Table.Center w3 "Description") as (f3 & -> & _);
    [done|].
  rewrite print_rows_ok by done. eauto.
Qed.

(** X10. With no row, [print_napps] prints "No NApps found." and the width
    of the terminal plays no part.  With rows, on a terminal narrower than
    the longest name plus twelve columns it raises [ValueError] before
    printing anything (the width left for the descriptions is negative);
    on any wider terminal it returns after printing the header, the rule,
    one line for each row in the order given, and the legend. *)
Theorem print_napps_outcome (columns : Z) napps :
  let w2 := Table.name_w napps in
  let w3 := Table.desc_w columns napps in
  (napps = [] →
   Table.print_napps columns napps = (Returned tt, ["No NApps found."]))
  ∧ (napps ≠ [] → columns < w2 + 12 →
     ∃ msg, Table.print_napps columns napps
            = (Raised (OtherError "ValueError" msg), []))
  ∧ (napps ≠ [] → w2 + 12 ≤ columns →
     ∃ header,
       Table.print_napps columns napps
       = (Returned tt,
          [header; Table.rule 6 w2 w3] ++ (Table.row_line w2 w3 <$> napps)
          ++ [String "010" "Status: (i)nstalled, (e)nabled"
              +:+ String "010" ""])).
Proof.
  intros w2 w3. split; [by intros ->|]. split.
  - intros Hne Hcol. destruct napps as [|r napps]; [done|].
    eexists. unfold Table.print_napps, Table.format3. fold w2 w3.
    assert (Hw2 : 0 ≤ w2) by apply max_len_nonneg.
    destruct (format_field_ok Table.Center 6 "Status") as (f1 & -> & _); [lia|].
    destruct (format_field_ok Table.Center w2 "NApp ID") as (f2 & -> & _);
      [done|].
    rewrite format_field_negative; [done|]. by apply desc_w_negative.
  - apply print_napps_prints.
Qed.

Lemma length_rule (w2 w3 : Z) :
  0 ≤ w2 → 0 ≤ w3 →
  Z.of_nat (String.length (Table.rule 6 w2 w3)) = 12 + w2 + w3.
Proof.
  intros ??. unfold Table.rule.
  rewrite !length_app, !length_repeat_char. simpl. lia.
Qed.

Lemma length_row_line (w2 w3 : Z) r :
  0 ≤ w2 → 0 ≤ w3 →
  Z.of_nat (String.length (Table.row_line w2 w3 r))
  = Z.max 6 (Z.of_nat (String.length r.1.1)) + 3
    + Z.max w2 (Z.of_nat (String.length r.1.2)) + 3
    + Z.max w3 (Z.of_nat (String.length (Table.shorten w3 r.2))).
Proof.
  intros ??. unfold Table.row_line. cbv zeta.
  rewrite !length_app, !length_repeat_char.
  change (String.length " | ") with 3%nat.
  pose proof (half_le (6 - String.length r.1.1)). lia.
Qed.

(** What [shorten] gives: the description itself when it fits, and
    otherwise its first [w3 - 3] characters and three dots, [w3]
    characters in all, when [w3] is at least 3. *)
Lemma shorten_fits (w3 : Z) s :
  Z.of_nat (String.length s) ≤ w3 → Table.shorten w3 s = s.
Proof.
  intros Hs. unfold Table.shorten.
  by destruct (Z.gtb_spec (Z.of_nat (String.length s)) w3) as [?|_]; [lia|].
Qed.

Lemma shorten_cut (w3 : Z) s :
  3 ≤ w3 → w3 < Z.of_nat (String.length s) →
  Table.shorten w3 s = String.substring 0 (Z.to_nat (w3 - 3)) s +:+ "..."
  ∧ Z.of_nat (String.length (Table.shorten w3 s)) = w3.
Proof.
  intros Hw Hs. unfold Table.shorten, Table.slice_to.
  destruct (Z.gtb_spec (Z.of_nat (String.length s)) w3) as [_|?]; [|lia].
  destruct (Z.ltb_spec (w3 - 3) 0) as [?|_]; [lia|].
  rewrite Z.min_l by lia. split; [done|].
  rewrite length_app, length_substring_0 by lia. simpl. lia.
Qed.

Lemma shorten_overflow (w3 : Z) s :
  0 ≤ w3 < 3 → w3 < Z.of_nat (String.length s) →
  Z.of_nat (String.length (Table.shorten w3 s))
  = Z.max 0 (Z.of_nat (String.length s) + w3 - 3) + 3.
Proof.
  intros Hw Hs. unfold Table.shorten, Table.slice_to.
  destruct (Z.gtb_spec (Z.of_nat (String.length s)) w3) as [_|?]; [|lia].
  destruct (Z.ltb_spec (w3 - 3) 0) as [_|?]; [|lia].
  rewrite length_app, length_substring_0 by lia. simpl. lia.
Qed.

Lemma desc_w_room (columns : Z) napps :
  let w2 := Table.name_w napps in
  let w3 := Table.desc_w columns napps in
  w2 + 12 ≤ columns →
  0 ≤ w2 ∧ 0 ≤ w3 ∧ 12 + w2 + w3 ≤ columns
  ∧ (w2 + 15 ≤ columns →
     3 ≤ w3 ∨ w3 = Table.max_len (λ n, n.2) napps).
Proof.
  intros w2 w3 Hcol.
  pose proof (max_len_nonneg (λ n, n.1.2) napps) as Hw2.
  pose proof (max_len_nonneg (λ n, n.2) napps) as Hmax.
  fold (Table.name_w napps) in Hw2. fold w2 in Hw2.
  assert (Hw3 : w3 = Z.min (Table.max_len (λ n, n.2) napps)
                           (columns - 6 - w2 - 6)) by done.
  lia.
Qed.

Lemma shorten_in_column (columns : Z) napps r :
  Table.name_w napps + 15 ≤ columns → r ∈ napps →
  Z.of_nat (String.length (Table.shorten (Table.desc_w columns napps) r.2))
  ≤ Table.desc_w columns napps.
Proof.
  intros Hcol Hr.
  pose proof (max_len_ge (λ n, n.2) r napps Hr) as Hdesc. simpl in Hdesc.
  destruct (desc_w_room columns napps) as (_ & _ & _ & [Hw3| ->]); [lia..| |].
  - destruct (Z.le_gt_cases (Z.of_nat (String.length r.2))
                (Table.desc_w columns napps)) as [Hfit|Hcut].
    + by rewrite shorten_fits.
    + destruct (shorten_cut (Table.desc_w columns napps) r.2) as [_ ->]; lia.
  - by rewrite shorten_fits.
Qed.

Lemma row_line_fits (columns : Z) napps r :
  let w2 := Table.name_w napps in
  let w3 := Table.desc_w columns napps in
  w2 + 15 ≤ columns → r ∈ napps → (String.length r.1.1 ≤ 6)%nat →
  Z.of_nat (String.length (Table.row_line w2 w3 r)) = 12 + w2 + w3.
Proof.
  intros w2 w3 Hcol Hr Hst.
  pose proof (max_len_ge (λ n, n.1.2) r napps Hr) as Hname.
  fold (Table.name_w napps) in Hname. fold w2 in Hname. simpl in Hname.
  pose proof (shorten_in_column columns napps r Hcol Hr) as Hshort.
  fold w3 in Hshort.
  destruct (desc_w_room columns napps) as (Hw2 & Hw3 & _); [fold w2; lia|].
  fold w2 in Hw2. fold w3 in Hw3.
  rewrite length_row_line by lia. lia.
Qed.

(** X11. When the terminal leaves at least three columns for the
    descriptions, the table fits: the rule and the line of every row whose
    status has at most six characters have the same length, which is at
    most the width of the terminal.  A description that fits its column is
    printed whole; a longer one is printed as its first characters followed
    by three dots, cut to the width of the column. *)
Theorem table_fits_terminal (columns : Z) napps r :
  let w2 := Table.name_w napps in
  let w3 := Table.desc_w columns napps in
  w2 + 15 ≤ columns →
  r ∈ napps →
  (String.length r.1.1 ≤ 6)%nat →
  Z.of_nat (String.length (Table.rule 6 w2 w3)) = 12 + w2 + w3
  ∧ Z.of_nat (String.length (Table.row_line w2 w3 r)) = 12 + w2 + w3
  ∧ 12 + w2 + w3 ≤ columns
  ∧ (Z.of_nat (String.length r.2) ≤ w3 → Table.shorten w3 r.2 = r.2)
  ∧ (w3 < Z.of_nat (String.length r.2) →
     Table.shorten w3 r.2
     = String.substring 0 (Z.to_nat (w3 - 3)) r.2 +:+ "..."
     ∧ Z.of_nat (String.length (Table.shorten w3 r.2)) = w3).
Proof.
  intros w2 w3 Hcol Hr Hst.
  pose proof (max_len_ge (λ n, n.2) r napps Hr) as Hdesc. simpl in Hdesc.
  destruct (desc_w_room columns napps) as (Hw2 & Hw3 & Hfit & Hroom);
    [fold w2; lia|].
  fold w2 in Hw2, Hfit, Hroom. fold w3 in Hw3, Hfit, Hroom.
  split_and!.
  - by apply length_rule.
  - by apply row_line_fits.
  - done.
  - apply shorten_fits.
  - intros Hcut. apply shorten_cut; lia.
Qed.

(** X12. When the terminal leaves fewer than three columns for the
    descriptions, a description longer than what is left is not cut to the
    column: the slice [desc[:desc_w-3]] counts from the end of the text,
    and the line of the row is longer than the rule. *)
Theorem narrow_terminal_overflows (columns : Z) napps r :
  let w2 := Table.name_w napps in
  let w3 := Table.desc_w columns napps in
  w2 + 12 ≤ columns < w2 + 15 →
  r ∈ napps →
  columns - 12 - w2 < Z.of_nat (String.length r.2) →
  w3 = columns - 12 - w2
  ∧ Z.of_nat (String.length (Table.shorten w3 r.2))
    = Z.max 0 (Z.of_nat (String.length r.2) + w3 - 3) + 3
  ∧ Z.of_nat (String.length (Table.rule 6 w2 w3))
    < Z.of_nat (String.length (Table.row_line w2 w3 r)).
Proof.
  intros w2 w3 Hcol Hr Hlong.
  pose proof (max_len_ge (λ n, n.2) r napps Hr) as Hdesc.
  pose proof (max_len_nonneg (λ n, n.1.2) napps) as Hw2.
  fold (Table.name_w napps) in Hw2. fold w2 in Hw2. simpl in Hdesc.
  assert (Hw3 : w3 = columns - 12 - w2).
  { unfold w3, Table.desc_w. cbv zeta. fold w2. lia. }
  assert (Hlen := shorten_overflow w3 r.2 ltac:(lia) ltac:(lia)).
  split; [done|]. split; [done|].
  rewrite length_rule, length_row_line by lia. lia.
Qed.

(** The statuses of the rows of [search] have four characters. *)
Lemma search_rows_status_length
    (remote_json : list listing) (installed enabled : list napp) r :
  r ∈ NAppsAPI.search_rows remote_json installed enabled →
  String.length r.1.1 = 4%nat.
Proof.
  unfold NAppsAPI.search_rows.
  intros ([n d] & -> & _)%list_elem_of_fmap. simpl.
  unfold NAppsAPI.status. by do 2 case_bool_decide.
Qed.

(** X13. The table of the search verb.  When the registry lists nothing,
    "No NApps found." is printed whatever the terminal.  Otherwise, when
    the terminal leaves at least three columns for the descriptions, the
    verb's rows are printed, one line each between the rule and the
    legend, and every one of these lines is as long as the rule and no
    longer than the terminal is wide. *)
Theorem search_table_fits_terminal
    (remote_json : list listing) (installed enabled : list napp)
    (columns : Z) :
  let rows := NAppsAPI.search_rows remote_json installed enabled in
  let w2 := Table.name_w rows in
  let w3 := Table.desc_w columns rows in
  (remote_json = [] →
   Table.print_napps columns rows = (Returned tt, ["No NApps found."]))
  ∧ (remote_json ≠ [] → w2 + 15 ≤ columns →
     (∃ header,
        Table.print_napps columns rows
        = (Returned tt,
           [header; Table.rule 6 w2 w3] ++ (Table.row_line w2 w3 <$> rows)
           ++ [String "010" "Status: (i)nstalled, (e)nabled"
               +:+ String "010" ""]))
     ∧ length rows = length remote_json
     ∧ ∀ line, line ∈ Table.rule 6 w2 w3 :: (Table.row_line w2 w3 <$> rows) →
         Z.of_nat (String.length line) = 12 + w2 + w3
         ∧ 12 + w2 + w3 ≤ columns).
Proof.
  intros rows w2 w3. split.
  { intros ->. done. }
  intros Hne Hcol.
  assert (Hlen : length rows = length remote_json).
  { unfold rows, NAppsAPI.search_rows.
    by rewrite length_fmap, sorted_Permutation, length_fmap. }
  assert (Hrows : rows ≠ []).
  { intros Hnil. rewrite Hnil in Hlen. by destruct remote_json. }
  destruct (desc_w_room columns rows) as (Hw2 & Hw3 & Hfit & _);
    [fold w2; lia|].
  fold w2 in Hw2, Hfit. fold w3 in Hw3, Hfit.
  split_and!.
  - apply print_napps_prints; [done|]. fold w2. lia.
  - done.
  - intros line [->|(r & -> & Hr)%list_elem_of_fmap]%elem_of_cons.
    + split; [by apply length_rule|done].
    + split; [|done]. apply row_line_fits; [done..|].
      rewrite (search_rows_status_length remote_json installed enabled r Hr).
      lia.
Qed.

End TableProperties.

(** * The calls and the order of the batch verbs *)

Section Frame.
Context {M : Type} {mgr : NAppsManager.t M}.
Implicit Types ok : call → bool.

Lemma only_ret {A} ok (a : A) : only (M:=M) ok (ret a).
Proof. intros m. constructor. Qed.

Lemma only_log ok (l : level) (msg : string) : only (M:=M) ok (log l msg).
Proof. intros m. by repeat constructor. Qed.

Lemma only_attr {A} ok (f : M → A) : only ok (attr f).
Proof. intros m. constructor. Qed.

Lemma only_query {A} ok (c : call) (f : M → A) :
  ok c = true → only ok (query c f).
Proof. intros Hc m. by repeat constructor. Qed.

Lemma only_update ok (c : call) (f : M → M) :
  ok c = true → only ok (update c f).
Proof. intros Hc m. by repeat constructor. Qed.

Lemma only_invoke ok (c : call) (f : M → exn + M) :
  ok c = true → only ok (invoke c f).
Proof.
  intros Hc m. unfold invoke. destruct (f m); by repeat constructor.
Qed.

Lemma only_bind {A B} ok (c : api M A) (k : A → api M B) :
  only ok c → (∀ a, only ok (k a)) → only ok (bind c k).
Proof.
  intros Hc Hk m. specialize (Hc m). unfold bind.
  destruct (c m) as [[[a|e] m1] t1]; [|done].
  specialize (Hk a m1). destruct (k a m1) as [[r m2] t2].
  unfold trace in *. simpl in *. by apply Forall_app.
Qed.

Lemma only_try_except {A} ok (body : api M A)
    (handler : exn → option (api M A)) :
  only ok body → (∀ e h, handler e = Some h → only ok h) →
  only ok (try_except body handler).
Proof.
  intros Hb Hh m. specialize (Hb m). unfold try_except.
  destruct (body m) as [[[a|e] m1] t1]; [done|].
  destruct (handler e) as [h|] eqn:He; [|done].
  specialize (Hh e h He m1). destruct (h m1) as [[r m2] t2].
  unfold trace in *. simpl in *. by apply Forall_app.
Qed.

Lemma only_for_each {A} ok (xs : list A) (body : A → api M unit) :
  (∀ x, only ok (body x)) → only ok (for_each xs body).
Proof.
  intros Hb. induction xs as [|x xs IH]; [apply only_ret|].
  simpl. by apply only_bind.
Qed.

Lemma only_select ok (n : napp) :
  (∀ u k, ok (CallSetNapp u k) = true) → only ok (NAppsAPI.select n).
Proof.
  intros Hok. unfold NAppsAPI.select.
  apply only_bind; [by apply only_update|intros _].
  apply only_bind; [apply only_attr|intros id]. apply only_log.
Qed.

Lemma only_enable_napp ok :
  ok CallIsEnabled = true → ok CallEnable = true →
  only ok NAppsAPI.enable_napp.
Proof.
  intros H1 H2. unfold NAppsAPI.enable_napp. apply only_try_except.
  - apply only_bind; [by apply only_query|intros en].
    apply only_bind; [|intros _; apply only_log].
    destruct (negb en); [|apply only_ret].
    apply only_bind; [apply only_log|intros _]. by apply only_invoke.
  - intros e h. destruct (_ || _); [|done]. intros [= <-]. apply only_log.
Qed.

Lemma only_disable_napp ok :
  ok CallIsEnabled = true → ok CallDisable = true →
  only ok NAppsAPI.disable_napp.
Proof.
  intros H1 H2. unfold NAppsAPI.disable_napp.
  apply only_bind; [by apply only_query|intros en].
  apply only_bind; [|intros _; apply only_log].
  destruct en; [|apply only_ret].
  apply only_bind; [apply only_log|intros _]. by apply only_invoke.
Qed.

Lemma only_install_napp ok :
  ok CallIsEnabled = true → ok CallEnable = true →
  ok CallInstallLocal = true → ok CallInstallRemote = true →
  only ok NAppsAPI.install_napp.
Proof.
  intros H1 H2 H3 H4. unfold NAppsAPI.install_napp. apply only_try_except.
  - apply only_bind; [apply only_log|intros _].
    apply only_bind; [by apply only_invoke|intros _].
    apply only_bind; [apply only_log|intros _]. by apply only_enable_napp.
  - intros e h. destruct (is_FileNotFoundError e); [|done]. intros [= <-].
    apply only_bind; [apply only_log|intros _]. apply only_try_except.
    + apply only_bind; [by apply only_invoke|intros _].
      apply only_bind; [apply only_log|intros _]. by apply only_enable_napp.
    + intros e1 h1. destruct e1 as [| |code msg|]; try done. intros [= <-].
      case_decide; apply only_log.
Qed.

Lemma run_verb_loop (v : verb) (ns : list napp) (p : string) :
  run_verb v (Args ns p)
  = for_each ns (λ n, NAppsAPI.select n ;;; after_select v).
Proof. by destruct v. Qed.

Lemma only_after_select ok (v : verb) :
  (∀ c, verb_calls v c = true → no_select c = true → ok c = true) →
  only ok (after_select v).
Proof.
  intros Hok. destruct v; simpl.
  - apply only_enable_napp; by apply Hok.
  - apply only_disable_napp; by apply Hok.
  - apply only_bind; [by apply only_query, Hok|intros inst].
    destruct (negb inst); [|apply only_log].
    apply only_install_napp; by apply Hok.
  - apply only_bind; [by apply only_query, Hok|intros inst].
    apply only_bind; [|intros _; apply only_log].
    destruct inst; [|apply only_ret].
    apply only_bind; [apply only_log|intros _].
    apply only_bind; [by apply only_invoke, Hok|intros _].
    apply only_disable_napp; by apply Hok.
Qed.

Lemma only_selected {A} ok (c : api M A) (m : M) :
  (∀ u n, ok (CallSetNapp u n) = false) → only ok c →
  selected (trace (c m)) = [].
Proof.
  intros Hok Hc. specialize (Hc m).
  unfold selected.
  induction Hc as [|ev t Hev _ IH]; [done|].
  destruct ev as [|cl|]; cbn [omap list_omap]; try done.
  destruct cl; try done. simpl in Hev. by rewrite Hok in Hev.
Qed.

(** A loop whose body starts with [select] and does not call [set_napp]
    again takes up the identities in order, and none after the one on
    which the body raises. *)
Lemma for_each_selected (body : api M unit) (ns : list napp) (m : M) :
  (∀ m, selected (trace (body m)) = []) →
  let r := for_each ns (λ n, NAppsAPI.select n ;;; body) m in
  match outcome r with
  | Returned _ => selected (trace r) = ns
  | Raised _ =>
      ∃ pre n rest, ns = pre ++ n :: rest ∧ selected (trace r) = pre ++ [n]
  end.
Proof.
  intros Hbody. revert m. induction ns as [|[u n] ns IH]; intros m.
  { done. }
  simpl. unfold bind at 1. unfold NAppsAPI.select, bind, update, attr, log.
  simpl. pose proof (Hbody (NAppsManager.set_napp u n m)) as Hs.
  destruct (body _) as [[[[]|e] m1] t1]; unfold outcome, trace in *; simpl in *.
  - specialize (IH m1). destruct (for_each _ _ _) as [[[[]|e] m2] t2];
      simpl in *; unfold selected in *; simpl; rewrite omap_app, Hs; simpl.
    + by rewrite IH.
    + destruct IH as (pre & k & rest & -> & ->).
      by exists ((u, n) :: pre), k, rest.
  - exists [], (u, n), ns. split; [done|]. unfold selected in *. simpl.
    by rewrite Hs.
Qed.

(** X14. Whatever the manager does, a batch verb calls only the methods
    its code names, logs, and never prints the table: enable and disable
    never ask whether the NApp is installed and never install or uninstall;
    disable and uninstall never enable; install never disables or
    uninstalls; uninstall never installs; none of them queries the
    registry with [search] or reads the lists and the descriptions. *)
Theorem verbs_call_only_their_methods (v : verb) (a : args) (m : M) :
  Forall (λ ev, event_ok (verb_calls v) ev = true) (trace (run_verb v a m)).
Proof.
  destruct a as [ns p]. rewrite run_verb_loop. revert m.
  change (only (verb_calls v) (for_each ns (λ n, NAppsAPI.select n ;;; after_select v))).
  apply only_for_each. intros n. apply only_bind.
  - apply only_select. by destruct v.
  - intros _. by apply only_after_select.
Qed.

(** X15. Whatever the manager does, a batch verb takes up the identities
    in the order of the batch, each once.  When the verb returns, all of
    them have been taken up; when an exception leaves it, the identities
    up to the one being processed have been taken up and none of those
    that follow. *)
Theorem batch_stops_at_first_failure
    (v : verb) (ns : list napp) (p : string) (m : M) :
  let r := run_verb v (Args ns p) m in
  match outcome r with
  | Returned _ => selected (trace r) = ns
  | Raised _ =>
      ∃ pre n rest, ns = pre ++ n :: rest ∧ selected (trace r) = pre ++ [n]
  end.
Proof.
  rewrite run_verb_loop. apply for_each_selected. intros m0.
  apply (only_selected (λ c, verb_calls v c && no_select c)); [done|].
  apply only_after_select. intros c Hv Hn. by rewrite Hv, Hn.
Qed.

End Frame.

(** * Concrete runs of the further properties *)

Lemma uninstall_of_absent_calls_nothing_witness :
  let n : napp := ("mock", "napp") in
  let m := Mock false true None None None None None None in
  NAppsManager.is_installed (NAppsManager.set_napp n.1 n.2 m) = false
  ∧ NAppsAPI.uninstall (Args [n] "") m
    = (Returned tt, m,
       [Call (CallSetNapp "mock" "napp"); Log INFO "NApp mock/napp:";
        Call CallIsInstalled; Log INFO "  Uninstalled."])
  ∧ NAppsManager.is_enabled (final (NAppsAPI.uninstall (Args [n] "") m)) = true.
Proof.
  intros n m. split; [done|].
  destruct (uninstall_of_absent_calls_nothing (mgr:=MockManager.manager)
              n [] "" m) as [H _]; [done|].
  rewrite H. done.
Defined.

Lemma uninstall_failure_leaves_the_verb_witness :
  let n : napp := ("mock", "napp") in
  let ns : list napp := [("mock", "other")] in
  let e := PermissionError "napps/mock/napp" in
  let m := Mock true true None None (Some e) None None None in
  NAppsManager.uninstall (NAppsManager.set_napp n.1 n.2 m) = inl e
  ∧ outcome (NAppsAPI.uninstall (Args (n :: ns) "") m) = Raised e
  ∧ calls (trace (NAppsAPI.uninstall (Args (n :: ns) "") m))
    = [CallSetNapp "mock" "napp"; CallIsInstalled; CallUninstall].
Proof.
  intros n ns e m. split; [done|].
  rewrite (uninstall_failure_leaves_the_verb (mgr:=MockManager.manager)
             n ns "" m e); [|done..].
  split; by vm_compute.
Defined.

Lemma disable_failure_leaves_the_verb_witness :
  let n : napp := ("mock", "napp") in
  let ns : list napp := [("mock", "other")] in
  let e := OtherError "OSError" "Device or resource busy" in
  let m := Mock true true None (Some e) None None None None in
  NAppsManager.disable (NAppsManager.set_napp n.1 n.2 m) = inl e
  ∧ outcome (NAppsAPI.disable (Args (n :: ns) "") m) = Raised e
  ∧ outcome (NAppsAPI.uninstall (Args (n :: ns) "") m) = Raised e
  ∧ mock_installed (final (NAppsAPI.uninstall (Args (n :: ns) "") m)) = false
  ∧ mock_enabled (final (NAppsAPI.uninstall (Args (n :: ns) "") m)) = true.
Proof.
  intros n ns e m. split; [done|].
  destruct (disable_failure_leaves_the_verb (mgr:=MockManager.manager)
              n ns "" m e) as [Hdis Hun].
  rewrite Hdis by done.
  rewrite (Hun (MockManager.with_state false true m)) by done.
  split_and!; by vm_compute.
Defined.

Lemma http_error_of_enable_depends_on_path_witness :
  let e := HTTPError 404 "Not Found" in
  let m := Mock false false (Some e) None None None None None in
  let m' :=
    Mock false false (Some e) None None (Some (FileNotFoundError "napp"))
         None None in
  NAppsManager.enable (MockManager.with_state true false m) = inl e
  ∧ outcome (NAppsAPI.install_napp m) = Raised e
  ∧ outcome (NAppsAPI.install_napp m') = Returned tt
  ∧ Log ERROR "  NApp not found." ∈ trace (NAppsAPI.install_napp m')
  ∧ Log INFO "  Installed." ∈ trace (NAppsAPI.install_napp m').
Proof.
  intros e m m'. split; [done|].
  destruct (http_error_of_enable_depends_on_path (mgr:=MockManager.manager)
              m (MockManager.with_state true false m) 404 "Not Found")
    as [Hlocal _]; [done..|].
  destruct (http_error_of_enable_depends_on_path (mgr:=MockManager.manager)
              m' (MockManager.with_state true false m') 404 "Not Found")
    as [_ Hremote]; [done..|].
  rewrite Hlocal by done. rewrite (Hremote "napp") by done.
  split_and!; [done|done|decide_by_computation..].
Defined.

Lemma remote_failure_other_than_http_leaves_the_verb_witness :
  let n : napp := ("mock", "napp") in
  let ns : list napp := [("mock", "other")] in
  let e := FileNotFoundError "napp.napp" in
  let m :=
    Mock false false None None None (Some (FileNotFoundError "napp"))
         (Some e) None in
  NAppsManager.install_remote (NAppsManager.set_napp n.1 n.2 m) = inl e
  ∧ outcome (NAppsAPI.install (Args (n :: ns) "") m) = Raised e
  ∧ calls (trace (NAppsAPI.install (Args (n :: ns) "") m))
    = [CallSetNapp "mock" "napp"; CallIsInstalled; CallInstallLocal;
       CallInstallRemote].
Proof.
  intros n ns e m. split; [done|].
  rewrite (remote_failure_other_than_http_leaves_the_verb
             (mgr:=MockManager.manager) n ns "" m "napp" e); [|done..].
  split; by vm_compute.
Defined.

Lemma enable_never_raises_handled_classes_witness :
  let n : napp := ("mock", "napp") in
  let e := OtherError "OSError" "Read-only file system" in
  let m := Mock true false (Some e) None None None None None in
  outcome (NAppsAPI.enable (Args [n] "") m) = Raised e
  ∧ is_FileNotFoundError e = false ∧ is_PermissionError e = false.
Proof.
  intros n e m. split; [by vm_compute|].
  apply (enable_never_raises_handled_classes (mgr:=MockManager.manager)
           (Args [n] "") m e).
  by vm_compute.
Defined.

Lemma list_prints_nothing_when_a_description_fails_witness :
  let m :=
    Mock true true None None None None None
         (Some (FileNotFoundError "kytos.json")) in
  ∃ n e tr,
    n ∈ NAppsManager.get_enabled m ++ NAppsManager.get_disabled m
    ∧ NAppsManager.get_description n.1 n.2 m = inl e
    ∧ NAppsAPI.list_ (Args [] "") m = (Raised e, m, tr)
    ∧ ∀ rows, PrintNApps rows ∉ tr.
Proof.
  intros m.
  apply (list_prints_nothing_when_a_description_fails
           (mgr:=MockManager.manager) (Args [] "") m).
  exists ("mock", "napp"). split; [apply list_elem_of_here|].
  by eexists.
Defined.

Lemma print_napps_outcome_witness :
  let rows : list row := [("[ie]", "kytos/of_core", "OpenFlow core")] in
  Table.print_napps 20 [] = (Returned tt, ["No NApps found."])
  ∧ (∃ msg, Table.print_napps 20 rows
            = (Raised (OtherError "ValueError" msg), []))
  ∧ (∃ header,
       Table.print_napps 80 rows
       = (Returned tt,
          [header;
           "=======+===============+==============";
           " [ie]  | kytos/of_core | OpenFlow core";
           String "010" "Status: (i)nstalled, (e)nabled" +:+ String "010" ""])).
Proof.
  intros rows.
  pose proof (print_napps_outcome 20 []) as (H1 & _ & _).
  pose proof (print_napps_outcome 20 rows) as (_ & H2 & _).
  pose proof (print_napps_outcome 80 rows) as (_ & _ & H3).
  split; [by apply H1|]. split; [by apply H2|].
  destruct H3 as [header H3]; [done..|].
  exists header. by rewrite H3.
Defined.

Lemma table_fits_terminal_witness :
  let r : row :=
    ("[i-]", "kytos/of_lldp", "Discovers the links between the switches") in
  let rows : list row := [("[ie]", "kytos/of_core", "OpenFlow core"); r] in
  Table.name_w rows = 13 ∧ Table.desc_w 40 rows = 15
  ∧ Table.rule 6 13 15 = "=======+===============+================"
  ∧ Table.row_line 13 15 r = " [i-]  | kytos/of_lldp | Discovers th..."
  ∧ Z.of_nat (String.length (Table.row_line 13 15 r)) = 40.
Proof.
  intros r rows.
  pose proof (table_fits_terminal 40 rows r) as H. cbv zeta in H.
  destruct H as (_ & H & _); [by vm_compute|decide_by_computation|simpl; lia|].
  split_and!; [by vm_compute..|].
  exact H.
Defined.

Lemma narrow_terminal_overflows_witness :
  let r : row := ("[ie]", "kytos/of_core", "OpenFlow core") in
  let rows : list row := [r] in
  Table.desc_w 26 rows = 1
  ∧ Table.shorten 1 r.2 = "OpenFlow co..."
  ∧ Z.of_nat (String.length (Table.rule 6 13 1))
    < Z.of_nat (String.length (Table.row_line 13 1 r)).
Proof.
  intros r rows.
  pose proof (narrow_terminal_overflows 26 rows r) as H. cbv zeta in H.
  destruct H as (H1 & _ & H3); [by vm_compute|decide_by_computation|by vm_compute|].
  split; [exact H1|]. split; [by vm_compute|]. exact H3.
Defined.

Lemma search_table_fits_terminal_witness :
  let installed : list napp := [("kytos", "of_core")] in
  let rows := NAppsAPI.search_rows (served demo_store) installed installed in
  Table.print_napps 20 (NAppsAPI.search_rows [] installed installed)
  = (Returned tt, ["No NApps found."])
  ∧ ∀ line,
      line ∈ Table.rule 6 (Table.name_w rows) (Table.desc_w 80 rows)
             :: (Table.row_line (Table.name_w rows) (Table.desc_w 80 rows)
                 <$> rows) →
      Z.of_nat (String.length line) ≤ 80.
Proof.
  intros installed rows.
  pose proof (search_table_fits_terminal [] installed installed 20) as H0.
  pose proof (search_table_fits_terminal (served demo_store)
                installed installed 80) as H.
  cbv zeta in H0, H. destruct H0 as [H0 _]. destruct H as [_ H].
  split; [by apply H0|].
  destruct H as (_ & _ & H); [done|by vm_compute|].
  intros line Hline. apply H in Hline. lia.
Defined.
